(** * AVL tree of [src/avl_tree.cc]: shallow embedding and verification

    The C++ class [AVLTree] owns a tree of heap nodes through a private
    [root] pointer.  Ownership is strictly tree shaped (no sharing, no
    back pointers), so a [Node*] is modelled as an inductive tree whose
    [Null] constructor stands for [nullptr].

    The C++ [int] fields are modelled as [Z].  Keys are only compared,
    never computed with.  The only arithmetic is on heights
    ([1 + max ...] and a difference of two heights); the height of a
    tree that obeys the AVL invariant is logarithmic in its size
    ([height_logarithmic]), far from the 32-bit range for any tree that
    fits in memory.

    Dereferencing [nullptr] is undefined behaviour; it is modelled by
    [None] in the option monad, and the theorems below show that no
    public operation ever reaches it. *)

From stdpp Require Import base option list sorting gmap.
From Stdlib Require Import ZArith Lia.

Local Open Scope Z_scope.

#[local] Set Warnings "-clear-no-such-hyp".

(** ** Data model *)

(** [struct Node { int data; Node *left; Node *right; int height; }],
    seen through a [Node*]. *)
Inductive tree : Type :=
  | Null
  | Node (data : Z) (left right : tree) (height_field : Z).

Definition is_null (N : tree) : bool :=
  match N with Null => true | Node _ _ _ _ => false end.

(** [new Node(val)]: both children absent, height 1. *)
Definition new_Node (val : Z) : tree := Node val Null Null 1.

(** Field reads through a pointer: [N->data], [N->left], [N->right].
    They fail on [nullptr]. *)
Definition get_data (N : tree) : option Z :=
  match N with Null => None | Node d _ _ _ => Some d end.

Definition get_left (N : tree) : option tree :=
  match N with Null => None | Node _ l _ _ => Some l end.

Definition get_right (N : tree) : option tree :=
  match N with Null => None | Node _ _ r _ => Some r end.

(** Field writes through a pointer: [N->left = v], [N->right = v],
    [N->data = v]. *)
Definition set_left (N v : tree) : option tree :=
  match N with Null => None | Node d _ r h => Some (Node d v r h) end.

Definition set_right (N v : tree) : option tree :=
  match N with Null => None | Node d l _ h => Some (Node d l v h) end.

Definition set_data (N : tree) (v : Z) : option tree :=
  match N with Null => None | Node _ l r h => Some (Node v l r h) end.

(** ** Private helpers of [AVLTree] *)

(** [int height(Node *N)] *)
Definition height (N : tree) : Z :=
  match N with
  | Null => 0
  | Node _ _ _ h => h
  end.

(** [void updateHeight(Node* N)] *)
Definition updateHeight (N : tree) : tree :=
  match N with
  | Null => Null
  | Node d l r _ => Node d l r (1 + Z.max (height l) (height r))
  end.

(** [int getBalance(Node *N)] *)
Definition getBalance (N : tree) : Z :=
  match N with
  | Null => 0
  | Node _ l r _ => height l - height r
  end.

(** [Node *rightRotate(Node *y)] *)
Definition rightRotate (y : tree) : option tree :=
  x ← get_left y;
  T2 ← get_right x;
  x ← set_right x y;
  y ← set_left y T2;
  let y := updateHeight y in
  x ← set_right x y;
  let x := updateHeight x in
  Some x.

(** [Node *leftRotate(Node *x)] *)
Definition leftRotate (x : tree) : option tree :=
  y ← get_right x;
  T2 ← get_left y;
  y ← set_left y x;
  x ← set_right x T2;
  let x := updateHeight x in
  y ← set_left y x;
  let y := updateHeight y in
  Some y.

(** [a && b] of C++: [b] is evaluated only when [a] holds. *)
Definition and_then (a : bool) (b : option bool) : option bool :=
  if a then b else Some false.

(** Lines 96-116 of [insertNode]: the part that runs after the
    recursive call has been reattached to [node]. *)
Definition insertRebalance (node : tree) (key : Z) : option tree :=
  let node := updateHeight node in
  let balance := getBalance node in
  c ← and_then (balance >? 1)
        (l ← get_left node; d ← get_data l; Some (key <? d));
  if (c : bool) then rightRotate node else
  c ← and_then (balance <? -1)
        (r ← get_right node; d ← get_data r; Some (key >? d));
  if (c : bool) then leftRotate node else
  c ← and_then (balance >? 1)
        (l ← get_left node; d ← get_data l; Some (key >? d));
  if (c : bool) then
    l ← get_left node;
    l ← leftRotate l;
    node ← set_left node l;
    rightRotate node
  else
  c ← and_then (balance <? -1)
        (r ← get_right node; d ← get_data r; Some (key <? d));
  if (c : bool) then
    r ← get_right node;
    r ← rightRotate r;
    node ← set_right node r;
    leftRotate node
  else
  Some node.

(** [Node* insertNode(Node* node, int key)] *)
Fixpoint insertNode (node : tree) (key : Z) : option tree :=
  match node with
  | Null => Some (new_Node key)
  | Node d l r h =>
      if key <? d then
        l' ← insertNode l key;
        insertRebalance (Node d l' r h) key
      else if key >? d then
        r' ← insertNode r key;
        insertRebalance (Node d l r' h) key
      else
        Some node
  end.

(** [Node* minValueNode(Node* node)]: the loop follows [left] while it
    is not absent. *)
Fixpoint minValueNode (node : tree) : tree :=
  match node with
  | Null => node
  | Node _ l _ _ =>
      match l with
      | Null => node
      | Node _ _ _ _ => minValueNode l
      end
  end.

(** Lines 158-181 of [deleteNode]: the part that runs after the key has
    been removed below [root]. *)
Definition deleteRebalance (root : tree) : option tree :=
  if is_null root then Some root else
  let root := updateHeight root in
  let balance := getBalance root in
  c ← and_then (balance >? 1)
        (l ← get_left root; Some (getBalance l >=? 0));
  if (c : bool) then rightRotate root else
  c ← and_then (balance >? 1)
        (l ← get_left root; Some (getBalance l <? 0));
  if (c : bool) then
    l ← get_left root;
    l ← leftRotate l;
    root ← set_left root l;
    rightRotate root
  else
  c ← and_then (balance <? -1)
        (r ← get_right root; Some (getBalance r <=? 0));
  if (c : bool) then leftRotate root else
  c ← and_then (balance <? -1)
        (r ← get_right root; Some (getBalance r >? 0));
  if (c : bool) then
    r ← get_right root;
    r ← rightRotate r;
    root ← set_right root r;
    leftRotate root
  else
  Some root.

(** [Node* deleteNode(Node* root, int key)].  The first part removes
    the key below [root]; the common tail rebalances what is left.  In
    the branch with at most one child, [*root = *temp] overwrites the
    node with the whole contents of its child (key, both links and
    height) and the child cell is freed, so the node becomes the child;
    without a child, [root] becomes [nullptr]. *)
Fixpoint deleteNode (root : tree) (key : Z) : option tree :=
  match root with
  | Null => Some root
  | Node d l r h =>
      root ←
        (if key <? d then
           l' ← deleteNode l key;
           set_left root l'
         else if key >? d then
           r' ← deleteNode r key;
           set_right root r'
         else if is_null l || is_null r then
           let temp := if negb (is_null l) then l else r in
           if is_null temp then Some Null
           else Some temp
         else
           let temp := minValueNode r in
           td ← get_data temp;
           root ← set_data root td;
           r' ← deleteNode r td;
           set_right root r');
      deleteRebalance root
  end.

(** [Node* searchNodeUtil(Node* node, int key)] *)
Fixpoint searchNodeUtil (node : tree) (key : Z) : tree :=
  match node with
  | Null => node
  | Node d l r _ =>
      if d =? key then node
      else if key <? d then searchNodeUtil l key
      else searchNodeUtil r key
  end.

(** ** The class [AVLTree] and its public methods *)

Record AVLTree : Type := mkAVLTree { root : tree }.

(** A method is a computation over the object: it may fail (undefined
    behaviour) and otherwise returns a value and the object after the
    call. *)
Definition method (A : Type) : Type := AVLTree → option (A * AVLTree).

#[global] Instance method_ret : MRet method := λ A a this, Some (a, this).

#[global] Instance method_bind : MBind method := λ A B k m this,
  match m this with
  | Some (a, this') => k a this'
  | None => None
  end.

(** Read and write of the private member [root]. *)
Definition get_root : method tree := λ this, Some (root this, this).

Definition put_root (r : tree) : method unit :=
  λ _, Some (tt, mkAVLTree r).

(** A call of a private helper, which may be undefined. *)
Definition call {A} (o : option A) : method A :=
  λ this, match o with Some a => Some (a, this) | None => None end.

(** [AVLTree() : root(nullptr) {}] *)
Definition AVLTree_new : AVLTree := mkAVLTree Null.

(** [void insert(int key) { root = insertNode(root, key); }] *)
Definition insert (key : Z) : method unit :=
  r ← get_root;
  r' ← call (insertNode r key);
  put_root r'.

(** [void remove(int key) { root = deleteNode(root, key); }] *)
Definition remove (key : Z) : method unit :=
  r ← get_root;
  r' ← call (deleteNode r key);
  put_root r'.

(** [bool search(int key) { return searchNodeUtil(root, key) != nullptr; }] *)
Definition search (key : Z) : method bool :=
  r ← get_root;
  mret (negb (is_null (searchNodeUtil r key))).

(** ** Sequences of public operations and the reference set *)

Inductive op : Type :=
  | Insert (key : Z)
  | Remove (key : Z).

Definition exec (o : op) : method unit :=
  match o with
  | Insert key => insert key
  | Remove key => remove key
  end.

(** The operations of [ops] one after the other, first to last. *)
Fixpoint run (ops : list op) : method unit :=
  match ops with
  | [] => mret tt
  | o :: ops => _ ← exec o; run ops
  end.

(** The trees a client of the class can ever hold: the root is private,
    so they are the results of operation sequences on a fresh tree. *)
Definition reachable (t : AVLTree) : Prop :=
  ∃ ops, run ops AVLTree_new = Some (tt, t).

(** The same operations on a plain set of keys. *)
Definition set_exec (S : gset Z) (o : op) : gset Z :=
  match o with
  | Insert key => {[key]} ∪ S
  | Remove key => S ∖ {[key]}
  end.

Definition set_run (ops : list op) (S : gset Z) : gset Z :=
  foldl set_exec S ops.

(** ** Structural predicates *)

(** Keys met by an in-order traversal. *)
Fixpoint inorder (t : tree) : list Z :=
  match t with
  | Null => []
  | Node d l r _ => inorder l ++ d :: inorder r
  end.

(** Height as the spec glossary defines it: number of nodes on the
    longest downward path, 0 for an absent subtree. *)
Fixpoint depth (t : tree) : Z :=
  match t with
  | Null => 0
  | Node _ l r _ => 1 + Z.max (depth l) (depth r)
  end.

(** Number of nodes. *)
Fixpoint size (t : tree) : Z :=
  match t with
  | Null => 0
  | Node _ l r _ => 1 + size l + size r
  end.

(** Invariant 1: binary search tree. *)
Fixpoint bst (t : tree) : Prop :=
  match t with
  | Null => True
  | Node d l r _ =>
      Forall (λ k, k < d) (inorder l) ∧ Forall (λ k, d < k) (inorder r) ∧
      bst l ∧ bst r
  end.

(** Invariant 2: the balance factor of every node is -1, 0 or 1. *)
Fixpoint balanced (t : tree) : Prop :=
  match t with
  | Null => True
  | Node d l r h =>
      -1 ≤ getBalance (Node d l r h) ≤ 1 ∧ balanced l ∧ balanced r
  end.

(** Invariant 3: the cached height of every node is one more than the
    larger of its children's heights. *)
Fixpoint heights_ok (t : tree) : Prop :=
  match t with
  | Null => True
  | Node _ l r h =>
      h = 1 + Z.max (height l) (height r) ∧ heights_ok l ∧ heights_ok r
  end.

Definition invariants (t : tree) : Prop :=
  bst t ∧ balanced t ∧ heights_ok t.

(** A leaf: a node without children, of height 1. *)
Definition is_leaf (t : tree) : Prop :=
  ∃ d, t = Node d Null Null 1.

(** What [insertNode] leaves behind when it makes a subtree one level
    higher: the root leans to the side that [key] went to. *)
Definition grew (key : Z) (t : tree) : Prop :=
  match t with
  | Null => False
  | Node d l r _ =>
      (key < d ∧ height l = height r + 1) ∨
      (d < key ∧ height r = height l + 1)
  end.

(** [s] occurs in [t] as the subtree hanging below some node, or is [t]
    itself. *)
Inductive subtree (s : tree) : tree → Prop :=
  | subtree_refl : subtree s s
  | subtree_left d l r h : subtree s l → subtree s (Node d l r h)
  | subtree_right d l r h : subtree s r → subtree s (Node d l r h).

(** The mirror image of a tree: left and right exchanged at every
    node. *)
Fixpoint mirror (t : tree) : tree :=
  match t with
  | Null => Null
  | Node d l r h => Node d (mirror r) (mirror l) h
  end.

(** ** The rebalancing tables of the spec

    [rebalance_action] names what is done at a node; [perform] does it
    with the rotation primitives of the code. *)
Inductive rebalance_action : Type :=
  | NoRotation
  | RotateRight
  | RotateLeft
  | RotateLeftRight
  | RotateRightLeft.

Definition perform (a : rebalance_action) (node : tree) : option tree :=
  match a with
  | NoRotation => Some node
  | RotateRight => rightRotate node
  | RotateLeft => leftRotate node
  | RotateLeftRight =>
      l ← get_left node; l ← leftRotate l;
      node ← set_left node l; rightRotate node
  | RotateRightLeft =>
      r ← get_right node; r ← rightRotate r;
      node ← set_right node r; leftRotate node
  end.

(** The table of spec 4.2 read as a relation: the row of the table that
    applies at [node] (heights up to date) for the inserted [key]. *)
Inductive insert_case (node : tree) (key : Z) : rebalance_action → Prop :=
  | insert_LL d r h ld ll lr lh :
      node = Node d (Node ld ll lr lh) r h →
      getBalance node > 1 → key < ld →
      insert_case node key RotateRight
  | insert_RR d l h rd rl rr rh :
      node = Node d l (Node rd rl rr rh) h →
      getBalance node < -1 → key > rd →
      insert_case node key RotateLeft
  | insert_LR d r h ld ll lr lh :
      node = Node d (Node ld ll lr lh) r h →
      getBalance node > 1 → key > ld →
      insert_case node key RotateLeftRight
  | insert_RL d l h rd rl rr rh :
      node = Node d l (Node rd rl rr rh) h →
      getBalance node < -1 → key < rd →
      insert_case node key RotateRightLeft.

(** The table of spec 4.3 as a function of the two balance factors. *)
Definition delete_case (node : tree) : rebalance_action :=
  match node with
  | Null => NoRotation
  | Node _ l r _ =>
      if getBalance node >? 1 then
        if getBalance l >=? 0 then RotateRight else RotateLeftRight
      else if getBalance node <? -1 then
        if getBalance r <=? 0 then RotateLeft else RotateRightLeft
      else NoRotation
  end.

(** The nodes that [insertNode] visits for [key] below [t]: [t] itself,
    then the left child when [key] is smaller than the key of the node
    and the right child when it is greater (lines 89-92). *)
Inductive on_path (key : Z) (n : tree) : tree → Prop :=
  | on_path_here : on_path key n n
  | on_path_left d l r h :
      key < d → on_path key n l → on_path key n (Node d l r h)
  | on_path_right d l r h :
      key > d → on_path key n r → on_path key n (Node d l r h).

(** ** Teardown *)

(** [void destroyRecursive(Node* node)] deletes the cells of a subtree:
    first those of the left subtree, then those of the right subtree,
    then the node itself.  The model returns the cells in the order of
    the [delete] calls, each cell named by the key it holds. *)
Fixpoint destroyRecursive (node : tree) : list Z :=
  match node with
  | Null => []
  | Node d l r _ => destroyRecursive l ++ destroyRecursive r ++ [d]
  end.

(** [~AVLTree() { destroyRecursive(root); root = nullptr; }]: the cells
    deleted and the object as the destructor leaves it. *)
Definition AVLTree_delete (this : AVLTree) : list Z * AVLTree :=
  (destroyRecursive (root this), mkAVLTree Null).

(** * Verification *)

(** ** Basic facts on heights *)

Lemma heights_ok_depth t : heights_ok t → height t = depth t.
Proof.
  induction t as [|d l IHl r IHr h]; simpl; [done|].
  intros (-> & Hl & Hr). by rewrite IHl, IHr.
Qed.

Lemma depth_nonneg t : 0 ≤ depth t.
Proof. induction t; simpl; lia. Qed.

Lemma height_nonneg t : heights_ok t → 0 ≤ height t.
Proof. intros H. rewrite (heights_ok_depth _ H). apply depth_nonneg. Qed.

Lemma height_Node_pos d l r h : heights_ok (Node d l r h) → 1 ≤ h.
Proof.
  simpl. intros (-> & Hl%height_nonneg & Hr%height_nonneg). lia.
Qed.

Lemma height_zero_Null t : heights_ok t → height t ≤ 0 → t = Null.
Proof.
  destruct t as [|d l r h]; [done|].
  intros H%height_Node_pos. simpl. lia.
Qed.

Lemma size_nonneg t : 0 ≤ size t.
Proof. induction t; simpl; lia. Qed.

(** The height of a balanced tree is logarithmic in its size: a tree of
    [n] nodes has height at most [2 * log2 (n + 1) + 1].  A tree that
    fits in a 64-bit address space therefore has a height below 130, so
    the [int] arithmetic on heights never leaves the 32-bit range and
    [Z] models it exactly. *)
Lemma height_logarithmic t :
  balanced t → heights_ok t → 2 ^ (height t / 2) ≤ size t + 1.
Proof.
  induction t as [|d l IHl r IHr h]; [done|].
  simpl. intros (Hb & Bl & Br) (Eh & Hl & Hr).
  specialize (IHl Bl Hl). specialize (IHr Br Hr).
  pose proof (height_nonneg l Hl). pose proof (height_nonneg r Hr).
  destruct (decide (h = 1)) as [->|Hne].
  { pose proof (size_nonneg l). pose proof (size_nonneg r).
    change (2 ^ (1 / 2)) with 1. lia. }
  assert (h / 2 = (h - 2) / 2 + 1) as ->.
  { rewrite <-(Z.div_add _ 1 2) by lia. f_equal. lia. }
  assert (0 ≤ (h - 2) / 2) by (apply Z.div_pos; lia).
  rewrite Z.pow_add_r by lia. change (2 ^ 1) with 2.
  assert (2 ^ ((h - 2) / 2) ≤ 2 ^ (height l / 2)).
  { apply Z.pow_le_mono_r; [lia|]. apply Z.div_le_mono; lia. }
  assert (2 ^ ((h - 2) / 2) ≤ 2 ^ (height r / 2)).
  { apply Z.pow_le_mono_r; [lia|]. apply Z.div_le_mono; lia. }
  lia.
Qed.

(** ** In-order traversal and the search-tree property *)

Lemma inorder_updateHeight t : inorder (updateHeight t) = inorder t.
Proof. by destruct t. Qed.

Lemma rightRotate_inorder y t : rightRotate y = Some t → inorder t = inorder y.
Proof.
  destruct y as [|yd [|xd T1 T2 xh] T3 yh]; simpl; try done.
  intros [= <-]. simpl. by rewrite <-app_assoc.
Qed.

Lemma leftRotate_inorder x t : leftRotate x = Some t → inorder t = inorder x.
Proof.
  destruct x as [|xd T1 [|yd T2 T3 yh] xh]; simpl; try done.
  intros [= <-]. simpl. by rewrite <-app_assoc.
Qed.

Lemma bst_sorted t : bst t ↔ StronglySorted Z.lt (inorder t).
Proof.
  induction t as [|d l IHl r IHr h]; simpl.
  - split; [constructor|done].
  - rewrite StronglySorted_app, StronglySorted_cons, IHl, IHr.
    rewrite !Forall_forall. split.
    + intros (Hl & Hr & Sl & Sr). split_and!; try done.
      intros x1 x2 H1 [->|H2]%elem_of_cons; [by apply Hl|].
      specialize (Hl _ H1). specialize (Hr _ H2). lia.
    + intros (H & Sl & Hr & Sr). split_and!; try done.
      intros x Hx. apply (H x d); [done|]. apply elem_of_cons; by left.
Qed.

Lemma bst_NoDup t : bst t → NoDup (inorder t).
Proof.
  rewrite bst_sorted. induction 1 as [|x l _ IH Hx]; constructor; [|done].
  intros Hin. rewrite Forall_forall in Hx. specialize (Hx _ Hin). lia.
Qed.

Lemma inorder_nil t : inorder t = [] → t = Null.
Proof. destruct t as [|d l r h]; [done|]. simpl. by destruct (inorder l). Qed.

Lemma bst_Node d l r h :
  bst (Node d l r h) ↔
    (∀ x, x ∈ inorder l → x < d) ∧ (∀ x, x ∈ inorder r → d < x) ∧
    bst l ∧ bst r.
Proof. simpl. by rewrite !Forall_forall. Qed.

Lemma elem_of_inorder_Node x d l r h :
  x ∈ inorder (Node d l r h) ↔ x ∈ inorder l ∨ x = d ∨ x ∈ inorder r.
Proof. simpl. by rewrite elem_of_app, elem_of_cons. Qed.

(** ** Tactics for the integer tests of the code *)

Lemma gtb_true a b : b < a → (a >? b) = true.
Proof. rewrite Z.gtb_ltb. apply Z.ltb_lt. Qed.

Lemma gtb_false a b : a ≤ b → (a >? b) = false.
Proof. rewrite Z.gtb_ltb. apply Z.ltb_ge. Qed.

Lemma ltb_true a b : a < b → (a <? b) = true.
Proof. apply Z.ltb_lt. Qed.

Lemma ltb_false a b : b ≤ a → (a <? b) = false.
Proof. apply Z.ltb_ge. Qed.

Lemma geb_true a b : b ≤ a → (a >=? b) = true.
Proof. rewrite Z.geb_leb. apply Z.leb_le. Qed.

Lemma geb_false a b : a < b → (a >=? b) = false.
Proof. rewrite Z.geb_leb. apply Z.leb_gt. Qed.

Lemma leb_true a b : a ≤ b → (a <=? b) = true.
Proof. apply Z.leb_le. Qed.

Lemma leb_false a b : b < a → (a <=? b) = false.
Proof. apply Z.leb_gt. Qed.

(** Settle the integer tests of the goal that follow from the context
    and run the code past them. *)
Ltac zbool :=
  repeat (simpl;
    match goal with
    | |- context [?a >? ?b] =>
        first [rewrite (gtb_true a b) by lia | rewrite (gtb_false a b) by lia]
    | |- context [?a <? ?b] =>
        first [rewrite (ltb_true a b) by lia | rewrite (ltb_false a b) by lia]
    | |- context [?a >=? ?b] =>
        first [rewrite (geb_true a b) by lia | rewrite (geb_false a b) by lia]
    | |- context [?a <=? ?b] =>
        first [rewrite (leb_true a b) by lia | rewrite (leb_false a b) by lia]
    end).

(** Record that the height of every tree known to have correct cached
    heights is not negative. *)
Ltac nonneg :=
  repeat match goal with
  | H : heights_ok ?t |- _ =>
      lazymatch goal with
      | _ : 0 ≤ height t |- _ => fail
      | _ => pose proof (height_nonneg t H)
      end
  end.

(** Run a rebalancing step whose tests the context settles, and check
    the shape, the heights and the key sequence of what it returns. *)
Ltac rebalance_by step :=
  eexists; unfold step; zbool; split; [done|];
  simpl; rewrite <-?app_assoc; simpl; rewrite <-?app_assoc; simpl;
  split_and!; try done; try lia; try tauto.

(** ** The rebalancing steps restore the balance *)

Section Rebalance.
(** The node [Node d l r h] after a subtree has been reattached: both
    subtrees are in order, the cached height [h] is stale and the
    heights of the subtrees are up to two apart. *)
Context (d : Z) (l r : tree) (h : Z).
Hypothesis (Bl : balanced l) (Hl : heights_ok l).
Hypothesis (Br : balanced r) (Hr : heights_ok r).
Hypothesis (Hrange : -2 ≤ height l - height r ≤ 2).

Lemma insertRebalance_ok k :
  (height l - height r = 2 → grew k l) →
  (height l - height r = -2 → grew k r) →
  ∃ t', insertRebalance (Node d l r h) k = Some t' ∧
        balanced t' ∧ heights_ok t' ∧
        inorder t' = inorder (Node d l r h) ∧
        if decide (-1 ≤ height l - height r ≤ 1)
        then t' = Node d l r (1 + Z.max (height l) (height r))
        else height t' = Z.max (height l) (height r).
Proof using All.
  intros GL GR. nonneg. case_decide as Hc.
  { rebalance_by insertRebalance. }
  destruct (decide (height l - height r = 2)) as [E|E].
  - (* the left subtree is two higher *)
    specialize (GL E). clear GR.
    destruct l as [|ld ll lr lh]; [done|].
    simpl in *. destruct_and?. nonneg.
    destruct GL as [[Hk Hh]|[Hk Hh]].
    + rebalance_by insertRebalance.
    + destruct lr as [|lrd lrl lrr lrh]; simpl in *; [lia|].
      destruct_and?. rebalance_by insertRebalance.
  - (* the right subtree is two higher *)
    assert (height l - height r = -2) as E' by lia.
    specialize (GR E'). clear GL.
    destruct r as [|rd rl rr rh]; [done|].
    simpl in *. destruct_and?. nonneg.
    destruct GR as [[Hk Hh]|[Hk Hh]].
    + destruct rl as [|rld rll rlr rlh]; simpl in *; [lia|].
      destruct_and?. rebalance_by insertRebalance.
    + rebalance_by insertRebalance.
Qed.

Lemma deleteRebalance_ok :
  ∃ t', deleteRebalance (Node d l r h) = Some t' ∧
        balanced t' ∧ heights_ok t' ∧
        inorder t' = inorder (Node d l r h) ∧
        if decide (-1 ≤ height l - height r ≤ 1)
        then t' = Node d l r (1 + Z.max (height l) (height r))
        else height t' = Z.max (height l) (height r) ∨
             height t' = 1 + Z.max (height l) (height r).
Proof using All.
  nonneg. case_decide as Hc.
  { rebalance_by deleteRebalance. }
  destruct (decide (height l - height r = 2)) as [E|E].
  - (* the left subtree is two higher *)
    destruct l as [|ld ll lr lh]; simpl in *; [lia|].
    destruct_and?. nonneg.
    destruct (decide (0 ≤ height ll - height lr)).
    + rebalance_by deleteRebalance.
    + destruct lr as [|lrd lrl lrr lrh]; simpl in *; [lia|].
      destruct_and?. nonneg. rebalance_by deleteRebalance.
  - (* the right subtree is two higher *)
    destruct r as [|rd rl rr rh]; simpl in *; [lia|].
    destruct_and?. nonneg.
    destruct (decide (height rl - height rr ≤ 0)).
    + rebalance_by deleteRebalance.
    + destruct rl as [|rld rll rlr rlh]; simpl in *; [lia|].
      destruct_and?. nonneg. rebalance_by deleteRebalance.
Qed.
End Rebalance.

Lemma insertRebalance_id t k :
  t ≠ Null → balanced t → heights_ok t → insertRebalance t k = Some t.
Proof.
  destruct t as [|d l r h]; [done|].
  simpl. intros _ (Hb & Bl & Br) (Eh & Hl & Hr).
  destruct (insertRebalance_ok d l r h Bl Hl Br Hr) with (k := k)
    as (t' & -> & _ & _ & _ & Ht'); [lia..|].
  rewrite decide_True in Ht' by done. by rewrite Ht', Eh.
Qed.

Lemma deleteRebalance_id t :
  balanced t → heights_ok t → deleteRebalance t = Some t.
Proof.
  destruct t as [|d l r h]; [done|].
  simpl. intros (Hb & Bl & Br) (Eh & Hl & Hr).
  destruct (deleteRebalance_ok d l r h Bl Hl Br Hr)
    as (t' & -> & _ & _ & _ & Ht'); [lia|].
  rewrite decide_True in Ht' by done. by rewrite Ht', Eh.
Qed.

Lemma same_inorder_bst t t' : inorder t' = inorder t → bst t → bst t'.
Proof. rewrite !bst_sorted. by intros ->. Qed.

(** ** Insertion *)

Lemma insertNode_ok t k :
  balanced t → heights_ok t →
  ∃ t', insertNode t k = Some t' ∧ balanced t' ∧ heights_ok t' ∧
        (∀ x, x ∈ inorder t' ↔ x = k ∨ x ∈ inorder t) ∧
        (bst t → bst t') ∧
        (height t' = height t ∨
         height t' = height t + 1 ∧ (t = Null ∨ grew k t')).
Proof.
  induction t as [|d l IHl r IHr h]; intros Hb Hh.
  { exists (new_Node k). split_and!; simpl; try done; try lia.
    - intros x. rewrite list_elem_of_singleton, elem_of_nil. tauto.
    - right. split; [lia|by left]. }
  simpl in Hb, Hh. destruct Hb as (Hb & Bl & Br), Hh as (-> & Hl & Hr).
  cbn [insertNode]. destruct (Z.lt_trichotomy k d) as [Hlt|[->|Hgt]].
  - (* into the left subtree *)
    rewrite ltb_true by done.
    destruct (IHl Bl Hl) as (l' & -> & Bl' & Hl' & Hin & Hbst & Hgrow).
    cbn [mbind option_bind]. nonneg.
    assert (height l' - height r = 2 → grew k l') as G1.
    { intros E. destruct Hgrow as [?|[? [->|?]]]; try done; simpl in *; lia. }
    destruct (insertRebalance_ok d l' r (1 + Z.max (height l) (height r))
                Bl' Hl' Br Hr) with (k := k)
      as (t' & Ht' & Bt' & Hht' & Ein & Hcase); [lia|done|lia|].
    exists t'. split_and!; try done.
    + intros x. rewrite Ein, !elem_of_inorder_Node, Hin. tauto.
    + rewrite bst_Node. intros (Fl & Fr & Sl & Sr).
      apply (same_inorder_bst _ _ Ein), bst_Node. split_and!; auto.
      intros x [->|?]%Hin; [lia|auto].
    + case_decide as Hc; [subst t'|]; simpl; lia.
  - (* the key is here *)
    rewrite ltb_false, gtb_false by lia. eexists. split; [done|].
    simpl. split_and!; auto; try lia.
    intros x. rewrite !elem_of_app, !elem_of_cons. tauto.
  - (* into the right subtree *)
    rewrite ltb_false, gtb_true by lia.
    destruct (IHr Br Hr) as (r' & -> & Br' & Hr' & Hin & Hbst & Hgrow).
    cbn [mbind option_bind]. nonneg.
    assert (height l - height r' = -2 → grew k r') as G2.
    { intros E. destruct Hgrow as [?|[? [->|?]]]; try done; simpl in *; lia. }
    destruct (insertRebalance_ok d l r' (1 + Z.max (height l) (height r))
                Bl Hl Br' Hr') with (k := k)
      as (t' & Ht' & Bt' & Hht' & Ein & Hcase); [lia|lia|done|].
    exists t'. split_and!; try done.
    + intros x. rewrite Ein, !elem_of_inorder_Node, Hin. tauto.
    + rewrite bst_Node. intros (Fl & Fr & Sl & Sr).
      apply (same_inorder_bst _ _ Ein), bst_Node. split_and!; auto.
      intros x [->|?]%Hin; [lia|auto].
    + case_decide as Hc; [subst t'|]; simpl; lia.
Qed.

(** ** Removal *)

(** The node that [minValueNode] stops at has no left child and holds
    the first key of the in-order sequence. *)
Lemma minValueNode_first d l r h :
  ∃ m mr mh rest,
    minValueNode (Node d l r h) = Node m Null mr mh ∧
    inorder (Node d l r h) = m :: rest.
Proof.
  revert d r h. induction l as [|ld ll IHll lr _ lh]; intros d r h.
  - by exists d, r, h, (inorder r).
  - destruct (IHll ld lr lh) as (m & mr & mh & rest & Hm & Hin).
    exists m, mr, mh, (rest ++ d :: inorder r). split; [done|].
    change (inorder (Node d (Node ld ll lr lh) r h))
      with (inorder (Node ld ll lr lh) ++ d :: inorder r).
    by rewrite Hin.
Qed.

Lemma bst_first_least m rest t :
  bst t → inorder t = m :: rest → ∀ x, x ∈ rest → m < x.
Proof.
  rewrite bst_sorted. intros Hs E. rewrite E, StronglySorted_cons in Hs.
  destruct Hs as [Hm _]. by rewrite Forall_forall in Hm.
Qed.

Lemma deleteNode_ok t k :
  balanced t → heights_ok t →
  ∃ t', deleteNode t k = Some t' ∧ balanced t' ∧ heights_ok t' ∧
        (height t' = height t ∨ height t' = height t - 1) ∧
        (bst t → bst t' ∧ ∀ x, x ∈ inorder t' ↔ x ∈ inorder t ∧ x ≠ k).
Proof.
  revert k. induction t as [|d l IHl r IHr h]; intros k Hb Hh.
  { exists Null. split_and!; try done; try lia.
    intros _. split; [done|]. intros x. simpl. rewrite elem_of_nil. tauto. }
  simpl in Hb, Hh. destruct Hb as (Hb & Bl & Br), Hh as (-> & Hl & Hr).
  nonneg. cbn [deleteNode]. destruct (Z.lt_trichotomy k d) as [Hlt|[->|Hgt]].
  - (* below the left child *)
    rewrite ltb_true by done.
    destruct (IHl k Bl Hl) as (l' & -> & Bl' & Hl' & Hht & Hbst).
    cbn [mbind option_bind set_left]. nonneg.
    destruct (deleteRebalance_ok d l' r (1 + Z.max (height l) (height r))
                Bl' Hl' Br Hr)
      as (t' & Ht' & Bt' & Hht' & Ein & Hcase); [lia|].
    exists t'. split_and!; try done.
    + case_decide; [subst t'|]; simpl; lia.
    + rewrite bst_Node. intros (Fl & Fr & Sl & Sr).
      destruct (Hbst Sl) as [Sl' Hin]. split.
      * apply (same_inorder_bst _ _ Ein), bst_Node. split_and!; auto.
        intros x [Hx _]%Hin; auto.
      * intros x. rewrite Ein, !elem_of_inorder_Node, Hin.
        split; [|tauto]. intros [[? ?]|[->|Hx]]; [tauto|split; [auto|lia]|].
        specialize (Fr _ Hx). split; [tauto|lia].
  - (* the key is here *)
    rewrite ltb_false, gtb_false by lia.
    destruct l as [|ld ll lr lh]; [|destruct r as [|rd rl rr rh]].
    + (* no left child: the node becomes its right child *)
      destruct r as [|rd rl rr rh]; simpl.
      { exists Null. split_and!; try done; simpl; try lia.
        intros _. split; [done|]. intros x.
        rewrite elem_of_nil, list_elem_of_singleton. tauto. }
      rewrite (deleteRebalance_id (Node rd rl rr rh)) by done.
      eexists. split; [done|]. split_and!; try done; [simpl in *; lia|].
      intros (_ & Fr & _ & Sr). split; [done|].
      rewrite Forall_forall in Fr. intros x. rewrite elem_of_cons.
      split; [|intros [[->|Hx] ?]; done].
      intros Hx. split; [by right|]. specialize (Fr _ Hx). simpl in Fr. lia.
    + (* no right child: the node becomes its left child *)
      simpl. rewrite (deleteRebalance_id (Node ld ll lr lh)) by done.
      eexists. split; [done|]. split_and!; try done; [simpl in *; lia|].
      intros (Fl & _ & Sl & _). split; [done|].
      rewrite Forall_forall in Fl. intros x.
      rewrite elem_of_app, list_elem_of_singleton.
      split; [|intros [[Hx| ->] ?]; done].
      intros Hx. split; [by left|]. specialize (Fl _ Hx). simpl in Fl. lia.
    + (* two children: the in-order successor moves up *)
      destruct (minValueNode_first rd rl rr rh)
        as (m & mr & mh & rest & Hm & Hfirst).
      set (L := Node ld ll lr lh) in *. set (R := Node rd rl rr rh) in *.
      change (is_null L || is_null R) with false. cbv iota zeta.
      rewrite Hm. cbn [get_data set_data mbind option_bind].
      destruct (IHr m Br Hr) as (r' & -> & Br' & Hr' & Hht & Hbst).
      cbn [mbind option_bind set_right]. nonneg.
      destruct (deleteRebalance_ok m L r' (1 + Z.max (height L) (height R))
                  Bl Hl Br' Hr')
        as (t' & Ht' & Bt' & Hht' & Ein & Hcase); [lia|].
      exists t'. split_and!; try done.
      * clear Hbst IHl IHr.
        case_decide; [subst t'|]; subst L R; simpl in *; lia.
      * rewrite bst_Node. intros (Fl & Fr & Sl & Sr).
        destruct (Hbst Sr) as [Sr' Hin].
        pose proof (bst_first_least _ _ _ Sr Hfirst) as Fm.
        rewrite Hfirst in Fr, Hin.
        assert (d < m) as Hdm by (apply Fr; left).
        split.
        -- apply (same_inorder_bst _ _ Ein), bst_Node. split_and!; auto.
           ++ intros x Hx. specialize (Fl _ Hx). lia.
           ++ intros x [[->|Hx]%elem_of_cons Hne]%Hin; [done|]. by apply Fm.
        -- intros x. rewrite Ein, !elem_of_inorder_Node, Hin, Hfirst.
           rewrite !elem_of_cons. split.
           ++ intros [Hx|[->|[[->|Hx] Hne]]]; [|split; [tauto|lia]|done|].
              ** specialize (Fl _ Hx). split; [tauto|lia].
              ** specialize (Fm _ Hx). split; [tauto|lia].
           ++ intros [[Hx|[->|[->|Hx]]] Hne]; [tauto|done|tauto|].
              specialize (Fm _ Hx). right. right. split; [tauto|lia].
  - (* below the right child *)
    rewrite ltb_false, gtb_true by lia.
    destruct (IHr k Br Hr) as (r' & -> & Br' & Hr' & Hht & Hbst).
    cbn [mbind option_bind set_right]. nonneg.
    destruct (deleteRebalance_ok d l r' (1 + Z.max (height l) (height r))
                Bl Hl Br' Hr')
      as (t' & Ht' & Bt' & Hht' & Ein & Hcase); [lia|].
    exists t'. split_and!; try done.
    + case_decide; [subst t'|]; simpl; lia.
    + rewrite bst_Node. intros (Fl & Fr & Sl & Sr).
      destruct (Hbst Sr) as [Sr' Hin]. split.
      * apply (same_inorder_bst _ _ Ein), bst_Node. split_and!; auto.
        intros x [Hx _]%Hin; auto.
      * intros x. rewrite Ein, !elem_of_inorder_Node, Hin.
        split; [|tauto]. intros [Hx|[->|[? ?]]]; [|split; [auto|lia]|tauto].
        specialize (Fl _ Hx). split; [tauto|lia].
Qed.

(** ** Operations that find nothing to do *)

Lemma insertNode_present t k :
  bst t → balanced t → heights_ok t → k ∈ inorder t → insertNode t k = Some t.
Proof.
  induction t as [|d l IHl r IHr h]; intros Hs Hb Hh Hk.
  - by apply elem_of_nil in Hk.
  - pose proof Hb as (_ & Bl & Br). pose proof Hh as (_ & Hl & Hr).
    destruct Hs as (Fl & Fr & Sl & Sr). rewrite Forall_forall in Fl, Fr.
    simpl in Hk. apply elem_of_app in Hk as [Hk|[->|Hk]%elem_of_cons].
    + specialize (Fl _ Hk). simpl in Fl. cbn [insertNode].
      rewrite ltb_true by done. rewrite IHl by done.
      by apply insertRebalance_id.
    + cbn [insertNode]. by rewrite ltb_false, gtb_false by lia.
    + specialize (Fr _ Hk). simpl in Fr. cbn [insertNode].
      rewrite ltb_false, gtb_true by lia. rewrite IHr by done.
      by apply insertRebalance_id.
Qed.

Lemma deleteNode_absent t k :
  balanced t → heights_ok t → k ∉ inorder t → deleteNode t k = Some t.
Proof.
  induction t as [|d l IHl r IHr h]; intros Hb Hh Hk; [done|].
  pose proof Hb as (_ & Bl & Br). pose proof Hh as (_ & Hl & Hr).
  simpl in Hk. rewrite elem_of_app, elem_of_cons in Hk.
  cbn [deleteNode]. destruct (Z.lt_trichotomy k d) as [Hlt|[->|Hgt]].
  - rewrite ltb_true by done. rewrite IHl by tauto.
    by apply deleteRebalance_id.
  - tauto.
  - rewrite ltb_false, gtb_true by lia. rewrite IHr by tauto.
    by apply deleteRebalance_id.
Qed.

(** ** Search *)

Lemma searchNodeUtil_found t k :
  bst t → is_null (searchNodeUtil t k) = false ↔ k ∈ inorder t.
Proof.
  induction t as [|d l IHl r IHr h]; simpl.
  - intros _. rewrite elem_of_nil. split; [done|tauto].
  - intros (Fl & Fr & Sl & Sr). rewrite Forall_forall in Fl, Fr.
    rewrite elem_of_app, elem_of_cons.
    destruct (Z.eqb_spec d k) as [->|Hne].
    + simpl. tauto.
    + destruct (Z.ltb_spec k d) as [Hlt|Hge].
      * rewrite IHl by done. split; [tauto|].
        intros [?|[?|Hx]]; [done|lia|]. specialize (Fr _ Hx). simpl in Fr. lia.
      * rewrite IHr by done. split; [tauto|].
        intros [Hx|[?|?]]; [|lia|done]. specialize (Fl _ Hx). simpl in Fl. lia.
Qed.

Lemma search_unfold t k :
  search k t = Some (negb (is_null (searchNodeUtil (root t) k)), t).
Proof. done. Qed.

Lemma search_bst t k :
  bst (root t) → search k t = Some (bool_decide (k ∈ inorder (root t)), t).
Proof.
  intros Hs. rewrite search_unfold. do 2 f_equal.
  pose proof (searchNodeUtil_found (root t) k Hs) as Hf.
  destruct (is_null (searchNodeUtil (root t) k)); simpl.
  - rewrite bool_decide_eq_false_2; [done|]. intros ?%Hf. done.
  - rewrite bool_decide_eq_true_2; [done|]. by apply Hf.
Qed.

(** ** Subtrees inherit the invariants *)

Lemma subtree_balanced s t : subtree s t → balanced t → balanced s.
Proof. induction 1; simpl; tauto. Qed.

Lemma subtree_heights_ok s t : subtree s t → heights_ok t → heights_ok s.
Proof. induction 1; simpl; tauto. Qed.

Lemma subtree_bst s t : subtree s t → bst t → bst s.
Proof. induction 1; simpl; tauto. Qed.

(** ** Sequences of operations *)

Lemma insert_unfold t k :
  insert k t = r ← insertNode (root t) k; Some (tt, mkAVLTree r).
Proof.
  unfold insert, get_root, call, put_root, mbind, method_bind. simpl.
  by destruct (insertNode (root t) k).
Qed.

Lemma remove_unfold t k :
  remove k t = r ← deleteNode (root t) k; Some (tt, mkAVLTree r).
Proof.
  unfold remove, get_root, call, put_root, mbind, method_bind. simpl.
  by destruct (deleteNode (root t) k).
Qed.

Lemma run_cons o ops t :
  run (o :: ops) t = match exec o t with
                     | Some (_, t') => run ops t'
                     | None => None
                     end.
Proof.
  change (run (o :: ops) t) with (method_bind _ _ (λ _, run ops) (exec o) t).
  unfold method_bind. by destruct (exec o t) as [[[] ?]|].
Qed.

Lemma exec_ok o t :
  invariants (root t) →
  ∃ t', exec o t = Some (tt, t') ∧ invariants (root t') ∧
        ∀ x, x ∈ inorder (root t') ↔
             x ∈ set_exec (list_to_set (inorder (root t))) o.
Proof.
  intros (Hs & Hb & Hh). destruct o as [k|k]; simpl.
  - destruct (insertNode_ok (root t) k Hb Hh)
      as (r & Hr & Hb' & Hh' & Hin & Hs' & _).
    exists (mkAVLTree r). rewrite insert_unfold, Hr. simpl.
    split; [done|]. split; [split_and!; auto|].
    intros x. rewrite Hin. set_solver.
  - destruct (deleteNode_ok (root t) k Hb Hh)
      as (r & Hr & Hb' & Hh' & _ & Hs').
    destruct (Hs' Hs) as [Hs'' Hin].
    exists (mkAVLTree r). rewrite remove_unfold, Hr. simpl.
    split; [done|]. split; [by split_and!|].
    intros x. rewrite Hin. set_solver.
Qed.

Lemma run_ok ops t :
  invariants (root t) →
  ∃ t', run ops t = Some (tt, t') ∧ invariants (root t') ∧
        ∀ x, x ∈ inorder (root t') ↔
             x ∈ set_run ops (list_to_set (inorder (root t))).
Proof.
  revert t. induction ops as [|o ops IH]; intros t Hinv.
  - exists t. split_and!; try done. intros x. simpl. set_solver.
  - destruct (exec_ok o t Hinv) as (t1 & E1 & Hinv1 & Hin1).
    destruct (IH t1 Hinv1) as (t' & E' & Hinv' & Hin').
    exists t'. rewrite run_cons, E1. split_and!; try done.
    intros x. rewrite Hin'. unfold set_run. simpl.
    replace (list_to_set (inorder (root t1)))
      with (set_exec (list_to_set (inorder (root t))) o); [done|].
    apply set_eq. intros y. rewrite <-Hin1. set_solver.
Qed.

Lemma invariants_new : invariants (root AVLTree_new).
Proof. done. Qed.

Lemma reachable_invariants t : reachable t → invariants (root t).
Proof.
  intros [ops Hops].
  destruct (run_ok ops AVLTree_new invariants_new) as (t' & E & Hinv & _).
  congruence.
Qed.

Lemma set_run_app ops1 ops2 S :
  set_run (ops1 ++ ops2) S = set_run ops2 (set_run ops1 S).
Proof. apply foldl_app. Qed.

Lemma set_run_inserts ks S :
  set_run (Insert <$> ks) S = list_to_set ks ∪ S.
Proof.
  revert S. induction ks as [|k ks IH]; intros S; simpl.
  - set_solver.
  - unfold set_run in *. simpl. rewrite IH. set_solver.
Qed.

Lemma set_run_removes ks S :
  set_run (Remove <$> ks) S = S ∖ list_to_set ks.
Proof.
  revert S. induction ks as [|k ks IH]; intros S; simpl.
  - set_solver.
  - unfold set_run in *. simpl. rewrite IH. set_solver.
Qed.

(** * Specified properties *)

(** ** Membership against the reference set *)

(** C1. After any sequence of inserts and removes on a fresh tree, the
    operations have all returned and [search k] answers true exactly
    when [k] is in the set obtained by running the same sequence of set
    insertions and removals from the empty set. *)
Theorem search_matches_reference_set (ops : list op) (k : Z) :
  ∃ t b, run ops AVLTree_new = Some (tt, t) ∧
         search k t = Some (b, t) ∧
         (b = true ↔ k ∈ set_run ops ∅).
Proof.
  destruct (run_ok ops AVLTree_new invariants_new) as (t & E & Hinv & Hin).
  exists t, (bool_decide (k ∈ inorder (root t))). split; [done|].
  split; [apply search_bst, Hinv|].
  by rewrite bool_decide_eq_true, Hin.
Qed.

(** ** The structural invariants *)

(** C2. Every sequence of inserts and removes on a fresh tree runs to
    the end, and the tree it leaves is a search tree with unique keys,
    has every balance factor in -1..1, and has every cached height equal
    to one plus the larger of the children's heights. *)
Theorem reachable_tree_invariants (ops : list op) :
  ∃ t, run ops AVLTree_new = Some (tt, t) ∧
       bst (root t) ∧ NoDup (inorder (root t)) ∧
       balanced (root t) ∧ heights_ok (root t).
Proof.
  destruct (run_ok ops AVLTree_new invariants_new)
    as (t & E & (Hs & Hb & Hh) & _).
  exists t. split_and!; try done. by apply bst_NoDup.
Qed.

(** ** Inserting a key that is there, removing one that is not *)

(** C3. On a reachable tree that already holds [k], [insert k] returns
    normally and leaves the very same tree, which still satisfies the
    invariants.  So on any reachable tree, inserting [k] twice returns
    normally with the tree that inserting it once gives. *)
Theorem insert_present_unchanged (t : AVLTree) (k : Z) :
  reachable t →
  (k ∈ inorder (root t) → insert k t = Some (tt, t) ∧ invariants (root t)) ∧
  ∃ t1, insert k t = Some (tt, t1) ∧
        (_ ← insert k; insert k) t = Some (tt, t1).
Proof.
  intros Hinv%reachable_invariants. split.
  - intros Hk. split; [|done]. destruct Hinv as (Hs & Hb & Hh).
    rewrite insert_unfold, insertNode_present by done. by destruct t.
  - destruct (exec_ok (Insert k) t Hinv) as (t1 & E & (Hs & Hb & Hh) & Hin).
    simpl in E. exists t1. split; [done|].
    change ((_ ← insert k; insert k) t)
      with (method_bind _ _ (λ _, insert k) (insert k) t).
    unfold method_bind. rewrite E.
    rewrite insert_unfold, insertNode_present; try done; [by destruct t1|].
    apply Hin. simpl. set_solver.
Qed.

Lemma insert_present_unchanged_witness :
  reachable (mkAVLTree (Node 20 (Node 10 Null Null 1) (Node 30 Null Null 1) 2)) ∧
  10 ∈ inorder (Node 20 (Node 10 Null Null 1) (Node 30 Null Null 1) 2) ∧
  insert 10 (mkAVLTree (Node 20 (Node 10 Null Null 1) (Node 30 Null Null 1) 2))
    = Some (tt, mkAVLTree (Node 20 (Node 10 Null Null 1) (Node 30 Null Null 1) 2)) ∧
  invariants (Node 20 (Node 10 Null Null 1) (Node 30 Null Null 1) 2).
Proof.
  assert (reachable
            (mkAVLTree (Node 20 (Node 10 Null Null 1) (Node 30 Null Null 1) 2)))
    as Hr by (exists [Insert 30; Insert 20; Insert 10]; reflexivity).
  assert (10 ∈ inorder (Node 20 (Node 10 Null Null 1) (Node 30 Null Null 1) 2))
    as Hk by (simpl; repeat constructor).
  split; [exact Hr|]. split; [exact Hk|].
  exact (proj1 (insert_present_unchanged _ 10 Hr) Hk).
Defined.

(** C4. On a reachable tree that does not hold [k], [remove k] returns
    normally and leaves the very same tree, so every search after it
    answers as before it, and [k] is absent afterwards. *)
Theorem remove_absent_unchanged (t : AVLTree) (k : Z) :
  reachable t → k ∉ inorder (root t) →
  remove k t = Some (tt, t) ∧
  (∀ x, (_ ← remove k; search x) t = search x t) ∧
  (_ ← remove k; search k) t = Some (false, t).
Proof.
  intros (Hs & Hb & Hh)%reachable_invariants Hk.
  assert (remove k t = Some (tt, t)) as E.
  { rewrite remove_unfold, deleteNode_absent by done. by destruct t. }
  assert (∀ x, (_ ← remove k; search x) t = search x t) as Hsame.
  { intros x.
    change ((_ ← remove k; search x) t)
      with (method_bind _ _ (λ _, search x) (remove k) t).
    unfold method_bind. by rewrite E. }
  split_and!; try done.
  rewrite Hsame, search_bst by done. by rewrite bool_decide_eq_false_2.
Qed.

Lemma remove_absent_unchanged_witness :
  reachable (mkAVLTree (Node 10 Null Null 1)) ∧
  (100 ∉ inorder (Node 10 Null Null 1)) ∧
  remove 100 (mkAVLTree (Node 10 Null Null 1))
    = Some (tt, mkAVLTree (Node 10 Null Null 1)) ∧
  (_ ← remove 100; search 10) (mkAVLTree (Node 10 Null Null 1))
    = search 10 (mkAVLTree (Node 10 Null Null 1)).
Proof.
  assert (reachable (mkAVLTree (Node 10 Null Null 1)))
    as Hr by (exists [Insert 10]; reflexivity).
  assert (100 ∉ inorder (Node 10 Null Null 1)) as Hk.
  { simpl. rewrite list_elem_of_singleton. lia. }
  split; [exact Hr|]. split; [exact Hk|].
  destruct (remove_absent_unchanged _ 100 Hr Hk) as (E & Hsame & _).
  split; [exact E|apply Hsame].
Defined.

(** ** The rebalancing step of insertion *)

Lemma insert_case_perform node key a :
  node ≠ Null → insert_case (updateHeight node) key a →
  insertRebalance node key = perform a (updateHeight node).
Proof.
  destruct node as [|d l r h]; [done|]. intros _.
  unfold insertRebalance. set (n := updateHeight (Node d l r h)).
  cbv zeta. intros Hcase. destruct Hcase as
    [d0 r0 h0 ld ll lr lh E Hbf Hk | d0 l0 h0 rd rl rr rh E Hbf Hk
    |d0 r0 h0 ld ll lr lh E Hbf Hk | d0 l0 h0 rd rl rr rh E Hbf Hk];
    rewrite E in Hbf |- *; simpl in Hbf; by zbool.
Qed.

Lemma insert_case_unique node key a a' :
  insert_case node key a → insert_case node key a' → a' = a.
Proof.
  intros H H'. destruct H, H'; simplify_eq; try done; simpl in *; lia.
Qed.

Lemma insert_no_case node key :
  node ≠ Null → -1 ≤ getBalance (updateHeight node) ≤ 1 →
  insertRebalance node key = Some (updateHeight node).
Proof.
  destruct node as [|d l r h]; [done|]. intros _. simpl. intros Hbf.
  unfold insertRebalance. by zbool.
Qed.

(** C5. In a reachable tree, take any node and a key that [insertNode]
    sends into one of its subtrees.  If, once the subtree has been
    reattached and the height recomputed, the balance factor is above 1
    or below -1, then exactly one row of the table of four cases
    applies, and [insertNode] returns at this node what that row
    prescribes: a right rotation, a left rotation, a left rotation of
    the left child followed by a right rotation, or a right rotation of
    the right child followed by a left rotation. *)
Theorem insert_rebalance_one_case (T : AVLTree) (d : Z) (l r : tree) (h key : Z)
    (sub node : tree) :
  reachable T → subtree (Node d l r h) (root T) →
  (key < d ∧ insertNode l key = Some sub ∧ node = Node d sub r h) ∨
  (key > d ∧ insertNode r key = Some sub ∧ node = Node d l sub h) →
  getBalance (updateHeight node) > 1 ∨ getBalance (updateHeight node) < -1 →
  ∃ a, insert_case (updateHeight node) key a ∧
       (∀ a', insert_case (updateHeight node) key a' → a' = a) ∧
       a ≠ NoRotation ∧
       insertNode (Node d l r h) key = perform a (updateHeight node).
Proof.
  intros (_ & Hb & Hh)%reachable_invariants Hsub Hrec Hbf.
  apply (subtree_balanced _ _ Hsub) in Hb as (Hb & Bl & Br).
  apply (subtree_heights_ok _ _ Hsub) in Hh as (Eh & Hl & Hr).
  simpl in Hb. nonneg.
  assert (∃ a, insert_case (updateHeight node) key a ∧ a ≠ NoRotation ∧
               insertNode (Node d l r h) key = insertRebalance node key)
    as (a & Ha & Hne & E).
  { destruct Hrec as [(Hk & Hins & ->)|(Hk & Hins & ->)].
    - destruct (insertNode_ok l key Bl Hl)
        as (l' & Hl' & _ & Hhl' & _ & _ & Hgrow).
      assert (l' = sub) as -> by congruence.
      cbn [insertNode]. rewrite ltb_true, Hins by done. simpl in Hbf |- *.
      nonneg. destruct Hgrow as [?|[? [->|Hg]]]; [lia|simpl in *; lia|].
      destruct sub as [|ld ll lr lh]; [done|]. simpl in *.
      destruct Hg as [[? ?]|[? ?]].
      + exists RotateRight. split_and!; [|done|done].
        eapply insert_LL; [done|simpl; lia|done].
      + exists RotateLeftRight. split_and!; [|done|done].
        eapply insert_LR; [done|simpl; lia|lia].
    - destruct (insertNode_ok r key Br Hr)
        as (r' & Hr' & _ & Hhr' & _ & _ & Hgrow).
      assert (r' = sub) as -> by congruence.
      cbn [insertNode]. rewrite ltb_false, gtb_true, Hins by lia.
      simpl in Hbf |- *.
      nonneg. destruct Hgrow as [?|[? [->|Hg]]]; [lia|simpl in *; lia|].
      destruct sub as [|rd rl rr rh]; [done|]. simpl in *.
      destruct Hg as [[? ?]|[? ?]].
      + exists RotateRightLeft. split_and!; [|done|done].
        eapply insert_RL; [done|simpl; lia|done].
      + exists RotateLeft. split_and!; [|done|done].
        eapply insert_RR; [done|simpl; lia|lia]. }
  exists a. split_and!; try done.
  - intros a' Ha'. by apply (insert_case_unique (updateHeight node) key).
  - rewrite E. apply insert_case_perform; [|done].
    by destruct Hrec as [(_ & _ & ->)|(_ & _ & ->)].
Qed.

Lemma insert_rebalance_one_case_witness :
  reachable (mkAVLTree (Node 30 (Node 20 Null Null 1) Null 2)) ∧
  insertNode (Node 20 Null Null 1) 10 = Some (Node 20 (Node 10 Null Null 1) Null 2) ∧
  getBalance (updateHeight (Node 30 (Node 20 (Node 10 Null Null 1) Null 2) Null 2)) > 1 ∧
  ∃ a, insert_case
         (updateHeight (Node 30 (Node 20 (Node 10 Null Null 1) Null 2) Null 2))
         10 a ∧
       a ≠ NoRotation ∧
       insertNode (Node 30 (Node 20 Null Null 1) Null 2) 10
         = perform a
             (updateHeight (Node 30 (Node 20 (Node 10 Null Null 1) Null 2) Null 2)).
Proof.
  assert (reachable (mkAVLTree (Node 30 (Node 20 Null Null 1) Null 2)))
    as Hr by (exists [Insert 30; Insert 20]; reflexivity).
  split; [exact Hr|]. split; [reflexivity|]. split; [simpl; lia|].
  destruct (insert_rebalance_one_case
              (mkAVLTree (Node 30 (Node 20 Null Null 1) Null 2))
              30 (Node 20 Null Null 1) Null 2 10
              (Node 20 (Node 10 Null Null 1) Null 2)
              (Node 30 (Node 20 (Node 10 Null Null 1) Null 2) Null 2))
    as (a & Ha & _ & Hne & E).
  - exact Hr.
  - apply subtree_refl.
  - left. split; [lia|]. split; reflexivity.
  - left. simpl. lia.
  - exists a. split; [exact Ha|]. split; [exact Hne|exact E].
Defined.

(** ** The rebalancing step of removal *)

Lemma deleteRebalance_table root :
  deleteRebalance root =
    if is_null root then Some root
    else perform (delete_case (updateHeight root)) (updateHeight root).
Proof.
  destruct root as [|d l r h]; [done|].
  unfold deleteRebalance, delete_case. simpl.
  destruct (Z.gtb_spec (height l - height r) 1) as [Hgt|Hle]; simpl.
  - destruct (Z.geb_spec (getBalance l) 0) as [H0|H0]; simpl; [done|].
    by rewrite ltb_true by done.
  - destruct (Z.ltb_spec (height l - height r) (-1)) as [Hlt|Hge]; simpl;
      [|done].
    destruct (Z.leb_spec (getBalance r) 0) as [H0|H0]; simpl; [done|].
    by rewrite gtb_true by done.
Qed.

(** C6. [deleteNode] at any node first removes the key below the node
    (in the left subtree, in the right subtree, by splicing the node
    out, or by moving the in-order successor up) and then, at every
    such node and whatever happened further down, runs
    [deleteRebalance] on what is left.  [deleteRebalance] recomputes
    the height of the node and applies the table keyed off the child's
    balance factor; the five rows are written out with the subtree each
    one returns: the node with its height recomputed, a right rotation,
    a left rotation of the left child followed by a right rotation, a
    left rotation, a right rotation of the right child followed by a
    left rotation, each with the heights of the moved nodes recomputed.
    Run at every level of a balanced tree, this leaves every node
    balanced with a correct cached height. *)
Theorem delete_rebalance_every_level (d : Z) (l r : tree) (h key : Z) :
  ∃ below : option tree,
    deleteNode (Node d l r h) key = (root ← below; deleteRebalance root) ∧
    (key < d → below = (l' ← deleteNode l key; Some (Node d l' r h))) ∧
    (key > d → below = (r' ← deleteNode r key; Some (Node d l r' h))) ∧
    (key = d → l = Null ∨ r = Null →
       below = Some (if is_null l then r else l)) ∧
    (key = d → l ≠ Null → r ≠ Null →
       below = (td ← get_data (minValueNode r);
                r' ← deleteNode r td; Some (Node td l r' h))) ∧
    (∀ root,
       deleteRebalance root =
         if is_null root then Some root
         else perform (delete_case (updateHeight root)) (updateHeight root)) ∧
    (* balance factor in -1..1: only the height is recomputed *)
    (∀ d l r h,
       -1 ≤ height l - height r ≤ 1 →
       deleteRebalance (Node d l r h)
         = Some (Node d l r (1 + Z.max (height l) (height r)))) ∧
    (* bf > 1, balance(left) >= 0: right rotation *)
    (∀ d ld ll lr lh r h,
       lh - height r > 1 → 0 ≤ height ll - height lr →
       deleteRebalance (Node d (Node ld ll lr lh) r h)
         = Some (Node ld ll
                   (Node d lr r (1 + Z.max (height lr) (height r)))
                   (1 + Z.max (height ll)
                          (1 + Z.max (height lr) (height r))))) ∧
    (* bf > 1, balance(left) < 0: left rotation of the left child, then
       right rotation *)
    (∀ d ld ll md ml mr mh lh r h,
       lh - height r > 1 → height ll - mh < 0 →
       deleteRebalance (Node d (Node ld ll (Node md ml mr mh) lh) r h)
         = Some (Node md
                   (Node ld ll ml (1 + Z.max (height ll) (height ml)))
                   (Node d mr r (1 + Z.max (height mr) (height r)))
                   (1 + Z.max (1 + Z.max (height ll) (height ml))
                          (1 + Z.max (height mr) (height r))))) ∧
    (* bf < -1, balance(right) <= 0: left rotation *)
    (∀ d l rd rl rr rh h,
       height l - rh < -1 → height rl - height rr ≤ 0 →
       deleteRebalance (Node d l (Node rd rl rr rh) h)
         = Some (Node rd
                   (Node d l rl (1 + Z.max (height l) (height rl)))
                   rr
                   (1 + Z.max (1 + Z.max (height l) (height rl))
                          (height rr)))) ∧
    (* bf < -1, balance(right) > 0: right rotation of the right child,
       then left rotation *)
    (∀ d l rd md ml mr mh rr rh h,
       height l - rh < -1 → mh - height rr > 0 →
       deleteRebalance (Node d l (Node rd (Node md ml mr mh) rr rh) h)
         = Some (Node md
                   (Node d l ml (1 + Z.max (height l) (height ml)))
                   (Node rd mr rr (1 + Z.max (height mr) (height rr)))
                   (1 + Z.max (1 + Z.max (height l) (height ml))
                          (1 + Z.max (height mr) (height rr))))) ∧
    (* run at every level, the step keeps every node balanced *)
    (balanced (Node d l r h) → heights_ok (Node d l r h) →
     ∃ t', deleteNode (Node d l r h) key = Some t' ∧
           balanced t' ∧ heights_ok t').
Proof.
  eexists. split; [reflexivity|]. split_and!.
  - intros Hk. by rewrite ltb_true by done.
  - intros Hk. by rewrite ltb_false, gtb_true by lia.
  - intros Hk Hnull. rewrite ltb_false, gtb_false by lia.
    destruct l, r; try done. by destruct Hnull.
  - intros Hk Hl Hr. rewrite ltb_false, gtb_false by lia.
    destruct l; [done|]. destruct r; [done|]. done.
  - apply deleteRebalance_table.
  - intros. unfold deleteRebalance. by zbool.
  - intros. unfold deleteRebalance. by zbool.
  - intros. unfold deleteRebalance. by zbool.
  - intros. unfold deleteRebalance. by zbool.
  - intros. unfold deleteRebalance. by zbool.
  - intros Hb Hh.
    destruct (deleteNode_ok (Node d l r h) key Hb Hh) as (t' & E & Bt' & Ht' & _).
    by exists t'.
Qed.

(** The removal of [runAssertTests], Test 6: removing 30 leaves the
    root 20 with a left subtree two higher than the absent right one,
    and the right-rotation row applies. *)
Lemma delete_rebalance_every_level_witness :
  deleteNode
    (Node 20 (Node 10 (Node 5 Null Null 1) Null 2) (Node 30 Null Null 1) 3) 30
  = Some (Node 10 (Node 5 Null Null 1) (Node 20 Null Null 1) 2).
Proof.
  destruct (delete_rebalance_every_level
              20 (Node 10 (Node 5 Null Null 1) Null 2) (Node 30 Null Null 1) 3 30)
    as (below & E & _ & Hgt & _ & _ & _ & _ & Hright & _).
  rewrite E, Hgt by lia. simpl.
  rewrite (Hright 20 10 (Node 5 Null Null 1) Null 2 Null 3) by (simpl; lia).
  reflexivity.
Defined.

(** ** Rotations *)

Lemma height_mirror t : height (mirror t) = height t.
Proof. by destruct t. Qed.

Lemma rotate_mirror y : leftRotate (mirror y) = mirror <$> rightRotate y.
Proof.
  destruct y as [|yd [|xd T1 T2 xh] T3 yh]; try done.
  unfold leftRotate, rightRotate. simpl. rewrite !height_mirror.
  by rewrite (Z.max_comm (height T3)), (Z.max_comm _ (height T1)).
Qed.

(** C7. A right rotation around [y] with left child [x] returns [x] as
    the new root, with [x]'s former right child [T2] as the new left
    child of [y] and [y] as the new right child of [x]; the height of
    [y] is recomputed from [T2] and [T3], then that of [x] from [T1] and
    the new [y], so both cached heights are right for the rotated
    subtree.  The keys are the same in the same in-order sequence, so a
    search tree stays one.  The left rotation is the mirror image. *)
Theorem rotation_spec (yd xd : Z) (T1 T2 T3 : tree) (xh yh : Z) :
  let y := Node yd (Node xd T1 T2 xh) T3 yh in
  let y' := Node yd T2 T3 (1 + Z.max (height T2) (height T3)) in
  let x' := Node xd T1 y' (1 + Z.max (height T1) (height y')) in
  rightRotate y = Some x' ∧
  inorder x' = inorder y ∧ (bst y → bst x') ∧
  (heights_ok T1 → heights_ok T2 → heights_ok T3 → heights_ok x') ∧
  (∀ t, leftRotate (mirror t) = mirror <$> rightRotate t) ∧
  let x := Node xd T1 (Node yd T2 T3 yh) xh in
  let x'' := Node xd T1 T2 (1 + Z.max (height T1) (height T2)) in
  let y'' := Node yd x'' T3 (1 + Z.max (height x'') (height T3)) in
  leftRotate x = Some y'' ∧
  inorder y'' = inorder x ∧ (bst x → bst y'') ∧
  (heights_ok T1 → heights_ok T2 → heights_ok T3 → heights_ok y'').
Proof.
  intros y y' x'.
  assert (inorder x' = inorder y) as Ein.
  { subst x' y' y. simpl. by rewrite <-app_assoc. }
  split; [done|]. split; [done|].
  split; [rewrite !bst_sorted; by rewrite Ein|].
  split; [by intros; simpl|].
  split; [apply rotate_mirror|].
  intros x x'' y''.
  assert (inorder y'' = inorder x) as Ein'.
  { subst x x'' y''. simpl. by rewrite <-app_assoc. }
  split; [done|]. split; [done|].
  split; [rewrite !bst_sorted; by rewrite Ein'|].
  by intros; simpl.
Qed.

Lemma rotation_spec_witness :
  bst (Node 30 (Node 20 (Node 10 Null Null 1) Null 2) Null 3) ∧
  bst (Node 20 (Node 10 Null Null 1) (Node 30 Null Null 1) 2).
Proof.
  assert (bst (Node 30 (Node 20 (Node 10 Null Null 1) Null 2) Null 3)) as Hs.
  { simpl. repeat constructor; lia. }
  split; [exact Hs|].
  pose proof (rotation_spec 30 20 (Node 10 Null Null 1) Null Null 2 3) as H.
  simpl in H. destruct H as (_ & _ & Hbst & _). apply Hbst.
  simpl in Hs. exact Hs.
Defined.

(** ** Purity of search *)

(** C8. [search k] never fails and returns the object it was called on,
    untouched; on a search tree its boolean tells whether [k] occurs in
    the tree, false standing for absence. *)
Theorem search_pure (t : AVLTree) (k : Z) :
  ∃ b, search k t = Some (b, t) ∧
       (bst (root t) → (b = true ↔ k ∈ inorder (root t))).
Proof.
  eexists. split; [apply search_unfold|].
  intros Hs. rewrite negb_true_iff. by apply searchNodeUtil_found.
Qed.

Lemma search_pure_witness :
  bst (Node 20 (Node 10 Null Null 1) Null 2) ∧
  ∃ b, search 10 (mkAVLTree (Node 20 (Node 10 Null Null 1) Null 2))
         = Some (b, mkAVLTree (Node 20 (Node 10 Null Null 1) Null 2)) ∧
       (b = true ↔ 10 ∈ inorder (Node 20 (Node 10 Null Null 1) Null 2)).
Proof.
  assert (bst (Node 20 (Node 10 Null Null 1) Null 2)) as Hs.
  { simpl. repeat constructor; lia. }
  split; [exact Hs|].
  destruct (search_pure (mkAVLTree (Node 20 (Node 10 Null Null 1) Null 2)) 10)
    as (b & E & Hb).
  exists b. split; [exact E|]. apply Hb. exact Hs.
Defined.

(** ** Round trip *)

(** C9. Inserting distinct keys in any order and then removing all of
    them in any order leaves the empty tree, in which none of the keys
    is found. *)
Theorem insert_all_remove_all (ks ks' : list Z) :
  NoDup ks → ks' ≡ₚ ks →
  ∃ t, run ((Insert <$> ks) ++ (Remove <$> ks')) AVLTree_new = Some (tt, t) ∧
       root t = Null ∧
       ∀ k, k ∈ ks → search k t = Some (false, t).
Proof.
  intros _ Hperm.
  destruct (run_ok ((Insert <$> ks) ++ (Remove <$> ks')) AVLTree_new
              invariants_new) as (t & E & Hinv & Hin).
  exists t. split; [done|].
  assert (root t = Null) as Hnull.
  { apply inorder_nil. apply elem_of_nil_inv. intros x Hx%Hin.
    rewrite set_run_app, set_run_inserts, set_run_removes in Hx.
    rewrite elem_of_difference, !elem_of_union, !elem_of_list_to_set in Hx.
    rewrite Hperm in Hx. simpl in Hx. set_solver. }
  split; [done|]. intros k _. rewrite search_unfold. by rewrite Hnull.
Qed.

Lemma insert_all_remove_all_witness :
  NoDup [1; 2; 3] ∧ [3; 1; 2] ≡ₚ [1; 2; 3] ∧
  ∃ t, run ((Insert <$> [1; 2; 3]) ++ (Remove <$> [3; 1; 2])) AVLTree_new
         = Some (tt, t) ∧
       root t = Null ∧
       ∀ k, k ∈ [1; 2; 3] → search k t = Some (false, t).
Proof.
  assert (NoDup [1; 2; 3]) as Hnd.
  { repeat constructor; rewrite ?elem_of_cons, ?elem_of_nil; lia. }
  assert ([3; 1; 2] ≡ₚ [1; 2; 3]) as Hp.
  { apply perm_trans with [1; 3; 2]; [apply perm_swap|].
    apply perm_skip, perm_swap. }
  split; [exact Hnd|]. split; [exact Hp|].
  exact (insert_all_remove_all [1; 2; 3] [3; 1; 2] Hnd Hp).
Defined.

(** ** Nodes with a single child *)

(** C10. In a tree with balanced nodes and correct cached heights, the
    only child of a node with exactly one child is a leaf; removing the
    key of such a node makes the node that leaf: nothing below it is
    lost, since there is nothing below it. *)
Theorem one_child_is_leaf (t : tree) (d : Z) (l r : tree) (h : Z) :
  balanced t → heights_ok t → subtree (Node d l r h) t →
  (l = Null → r ≠ Null →
     is_leaf r ∧ deleteNode (Node d l r h) d = Some r) ∧
  (r = Null → l ≠ Null →
     is_leaf l ∧ deleteNode (Node d l r h) d = Some l).
Proof.
  intros Hb Hh Hsub.
  apply (subtree_balanced _ _ Hsub) in Hb as (Hb & Bl & Br).
  apply (subtree_heights_ok _ _ Hsub) in Hh as (Eh & Hl & Hr).
  simpl in Hb. split.
  - intros -> Hne. destruct r as [|rd rl rr rh]; [done|].
    cbn [deleteNode]. rewrite ltb_false, gtb_false by lia.
    simpl. rewrite (deleteRebalance_id (Node rd rl rr rh)) by done.
    split; [|done]. exists rd.
    destruct Hr as (Erh & Hrl & Hrr). nonneg. simpl in *.
    rewrite (height_zero_Null rl), (height_zero_Null rr) by (done || lia).
    f_equal. lia.
  - intros -> Hne. destruct l as [|ld ll lr lh]; [done|].
    cbn [deleteNode]. rewrite ltb_false, gtb_false by lia.
    simpl. rewrite (deleteRebalance_id (Node ld ll lr lh)) by done.
    split; [|done]. exists ld.
    destruct Hl as (Elh & Hll & Hlr). nonneg. simpl in *.
    rewrite (height_zero_Null ll), (height_zero_Null lr) by (done || lia).
    f_equal. lia.
Qed.

Lemma one_child_is_leaf_witness :
  balanced (Node 20 (Node 10 Null Null 1) Null 2) ∧
  heights_ok (Node 20 (Node 10 Null Null 1) Null 2) ∧
  is_leaf (Node 10 Null Null 1) ∧
  deleteNode (Node 20 (Node 10 Null Null 1) Null 2) 20
    = Some (Node 10 Null Null 1).
Proof.
  assert (balanced (Node 20 (Node 10 Null Null 1) Null 2)) as Hb.
  { simpl. lia. }
  assert (heights_ok (Node 20 (Node 10 Null Null 1) Null 2)) as Hh.
  { simpl. lia. }
  split; [exact Hb|]. split; [exact Hh|].
  destruct (one_child_is_leaf (Node 20 (Node 10 Null Null 1) Null 2)
              20 (Node 10 Null Null 1) Null 2 Hb Hh (subtree_refl _))
    as [_ Hleft].
  apply Hleft; [reflexivity|discriminate].
Defined.

(** * Further properties of the code *)

(** ** The minimum node *)

Lemma minValueNode_subtree t : subtree (minValueNode t) t.
Proof.
  induction t as [|d l IHl r _ h]; [constructor|].
  destruct l as [|ld ll lr lh]; [constructor|].
  apply subtree_left, IHl.
Qed.

(** X1. On a search tree that is not empty, [minValueNode] returns a
    node of the tree that has no left child and holds the least key of
    the tree. *)
Theorem minValueNode_least (t : tree) :
  bst t → t ≠ Null →
  ∃ m mr mh,
    minValueNode t = Node m Null mr mh ∧
    subtree (Node m Null mr mh) t ∧
    m ∈ inorder t ∧
    ∀ x, x ∈ inorder t → m ≤ x.
Proof.
  intros Hs Hne. destruct t as [|d l r h]; [done|].
  destruct (minValueNode_first d l r h) as (m & mr & mh & rest & Hm & Hfirst).
  exists m, mr, mh. split; [done|]. split_and!.
  - rewrite <-Hm. apply minValueNode_subtree.
  - rewrite Hfirst. by left.
  - intros x. rewrite Hfirst. intros [->|Hx]%elem_of_cons; [lia|].
    pose proof (bst_first_least _ _ _ Hs Hfirst x Hx). lia.
Qed.

Lemma minValueNode_least_witness :
  bst (Node 20 (Node 10 Null Null 1) (Node 30 Null Null 1) 2) ∧
  ∃ m mr mh,
    minValueNode (Node 20 (Node 10 Null Null 1) (Node 30 Null Null 1) 2)
      = Node m Null mr mh ∧
    m ∈ inorder (Node 20 (Node 10 Null Null 1) (Node 30 Null Null 1) 2).
Proof.
  assert (bst (Node 20 (Node 10 Null Null 1) (Node 30 Null Null 1) 2)) as Hs.
  { simpl. repeat constructor; lia. }
  split; [exact Hs|].
  destruct (minValueNode_least _ Hs) as (m & mr & mh & E & _ & Hm & _);
    [discriminate|].
  exists m, mr, mh. split; [exact E|exact Hm].
Defined.

(** ** The node that search returns *)

(** X2. [searchNodeUtil] returns either [nullptr] or a node of the tree
    whose key is the key searched for, on any tree. *)
Theorem searchNodeUtil_returns_node (t : tree) (k : Z) :
  searchNodeUtil t k = Null ∨
  ∃ l r h, searchNodeUtil t k = Node k l r h ∧ subtree (Node k l r h) t.
Proof.
  induction t as [|d l IHl r IHr h]; simpl; [by left|].
  destruct (Z.eqb_spec d k) as [->|Hne].
  - right. exists l, r, h. split; [done|constructor].
  - destruct (k <? d).
    + destruct IHl as [?|(l' & r' & h' & E & Hsub)]; [by left|right].
      exists l', r', h'. split; [done|]. by apply subtree_left.
    + destruct IHr as [?|(l' & r' & h' & E & Hsub)]; [by left|right].
      exists l', r', h'. split; [done|]. by apply subtree_right.
Qed.

(** ** Number of nodes *)

Lemma size_inorder t : size t = Z.of_nat (length (inorder t)).
Proof.
  induction t as [|d l IHl r IHr h]; simpl; [done|].
  rewrite length_app. simpl. lia.
Qed.

Lemma inorder_size_add t t' k :
  bst t → bst t' → k ∉ inorder t →
  (∀ x, x ∈ inorder t' ↔ x = k ∨ x ∈ inorder t) →
  size t' = size t + 1.
Proof.
  intros Hs Hs' Hk Hin. rewrite !size_inorder.
  assert (inorder t' ≡ₚ k :: inorder t) as ->.
  { apply NoDup_Permutation; [by apply bst_NoDup| |].
    - apply NoDup_cons. split; [done|by apply bst_NoDup].
    - intros x. rewrite Hin, elem_of_cons. tauto. }
  simpl. lia.
Qed.

Lemma inorder_size_same t t' :
  bst t → bst t' → (∀ x, x ∈ inorder t' ↔ x ∈ inorder t) → size t' = size t.
Proof.
  intros Hs Hs' Hin. rewrite !size_inorder.
  assert (inorder t' ≡ₚ inorder t) as ->; [|done].
  apply NoDup_Permutation; auto using bst_NoDup.
Qed.

(** X3. [insert] on a reachable tree returns normally; the tree has one
    node more when the key was absent and as many nodes as before when
    it was present. *)
Theorem insert_node_count (t : AVLTree) (k : Z) :
  reachable t →
  ∃ t', insert k t = Some (tt, t') ∧
        size (root t') =
          if bool_decide (k ∈ inorder (root t)) then size (root t)
          else size (root t) + 1.
Proof.
  intros Hinv%reachable_invariants.
  destruct (exec_ok (Insert k) t Hinv) as (t' & E & (Hs' & _) & Hin).
  destruct Hinv as (Hs & _). exists t'. split; [done|].
  assert (∀ x, x ∈ inorder (root t') ↔ x = k ∨ x ∈ inorder (root t)) as Hin'.
  { intros x. rewrite Hin. simpl. set_solver. }
  case_bool_decide as Hk.
  - apply inorder_size_same; try done. intros x. rewrite Hin'.
    split; [by intros [->|?]|tauto].
  - by apply (inorder_size_add _ _ k).
Qed.

Lemma insert_node_count_witness :
  reachable (mkAVLTree (Node 10 Null Null 1)) ∧
  ∃ t', insert 20 (mkAVLTree (Node 10 Null Null 1)) = Some (tt, t') ∧
        size (root t') = 2.
Proof.
  assert (reachable (mkAVLTree (Node 10 Null Null 1)))
    as Hr by (exists [Insert 10]; reflexivity).
  split; [exact Hr|].
  destruct (insert_node_count _ 20 Hr) as (t' & E & Hsize).
  exists t'. split; [exact E|]. rewrite Hsize. reflexivity.
Defined.

(** X4. [remove] on a reachable tree returns normally; the tree has one
    node less when the key was present and as many nodes as before when
    it was absent. *)
Theorem remove_node_count (t : AVLTree) (k : Z) :
  reachable t →
  ∃ t', remove k t = Some (tt, t') ∧
        size (root t') =
          if bool_decide (k ∈ inorder (root t)) then size (root t) - 1
          else size (root t).
Proof.
  intros Hinv%reachable_invariants.
  destruct (exec_ok (Remove k) t Hinv) as (t' & E & (Hs' & _) & Hin).
  destruct Hinv as (Hs & _). exists t'. split; [done|].
  assert (∀ x, x ∈ inorder (root t') ↔ x ∈ inorder (root t) ∧ x ≠ k) as Hin'.
  { intros x. rewrite Hin. simpl. set_solver. }
  case_bool_decide as Hk.
  - enough (size (root t) = size (root t') + 1) by lia.
    apply (inorder_size_add _ _ k); try done.
    + rewrite Hin'. tauto.
    + intros x. rewrite Hin'. destruct (decide (x = k)) as [->|]; tauto.
  - apply inorder_size_same; try done. intros x. rewrite Hin'.
    split; [tauto|]. intros Hx. split; [done|]. by intros ->.
Qed.

Lemma remove_node_count_witness :
  reachable (mkAVLTree (Node 10 Null Null 1)) ∧
  ∃ t', remove 10 (mkAVLTree (Node 10 Null Null 1)) = Some (tt, t') ∧
        size (root t') = 0.
Proof.
  assert (reachable (mkAVLTree (Node 10 Null Null 1)))
    as Hr by (exists [Insert 10]; reflexivity).
  split; [exact Hr|].
  destruct (remove_node_count _ 10 Hr) as (t' & E & Hsize).
  exists t'. split; [exact E|]. rewrite Hsize. reflexivity.
Defined.

(** X5. After any sequence of operations on a fresh tree, the tree has
    exactly as many nodes as the reference set has keys. *)
Theorem node_count_matches_reference_set (ops : list op) :
  ∃ t, run ops AVLTree_new = Some (tt, t) ∧
       size (root t) = Z.of_nat (length (elements (set_run ops ∅))).
Proof.
  destruct (run_ok ops AVLTree_new invariants_new) as (t & E & (Hs & _) & Hin).
  exists t. split; [done|]. rewrite size_inorder. f_equal.
  apply Permutation_length, NoDup_Permutation.
  - by apply bst_NoDup.
  - apply NoDup_elements.
  - intros x. by rewrite elem_of_elements, Hin.
Qed.

(** ** Height *)

(** X6. One operation on a reachable tree changes the height of the
    tree by at most one level: an insertion leaves it or raises it by
    one, a removal leaves it or lowers it by one. *)
Theorem height_step (t : AVLTree) (o : op) :
  reachable t →
  ∃ t', exec o t = Some (tt, t') ∧
        match o with
        | Insert _ =>
            depth (root t') = depth (root t) ∨
            depth (root t') = depth (root t) + 1
        | Remove _ =>
            depth (root t') = depth (root t) ∨
            depth (root t') = depth (root t) - 1
        end.
Proof.
  intros (Hs & Hb & Hh)%reachable_invariants. destruct o as [k|k]; simpl.
  - destruct (insertNode_ok (root t) k Hb Hh)
      as (r & Hr & _ & Hh' & _ & _ & Hstep).
    exists (mkAVLTree r). rewrite insert_unfold, Hr. split; [done|]. simpl.
    rewrite <-!heights_ok_depth by done. tauto.
  - destruct (deleteNode_ok (root t) k Hb Hh) as (r & Hr & _ & Hh' & Hstep & _).
    exists (mkAVLTree r). rewrite remove_unfold, Hr. split; [done|]. simpl.
    by rewrite <-!heights_ok_depth by done.
Qed.

Lemma height_step_witness :
  reachable (mkAVLTree (Node 10 Null Null 1)) ∧
  ∃ t', remove 10 (mkAVLTree (Node 10 Null Null 1)) = Some (tt, t') ∧
        (depth (root t') = 1 ∨ depth (root t') = 1 - 1).
Proof.
  assert (reachable (mkAVLTree (Node 10 Null Null 1)))
    as Hr by (exists [Insert 10]; reflexivity).
  split; [exact Hr|].
  exact (height_step (mkAVLTree (Node 10 Null Null 1)) (Remove 10) Hr).
Defined.

(** X7. In a reachable tree the cached height of the root is the real
    height of the tree, and the height is logarithmic in the number of
    nodes: a tree of height [h] has at least [2 ^ (h / 2) - 1] nodes. *)
Theorem reachable_height_logarithmic (t : AVLTree) :
  reachable t →
  height (root t) = depth (root t) ∧
  2 ^ (depth (root t) / 2) ≤ size (root t) + 1.
Proof.
  intros (Hs & Hb & Hh)%reachable_invariants.
  split; [by apply heights_ok_depth|].
  rewrite <-heights_ok_depth by done. by apply height_logarithmic.
Qed.

Lemma reachable_height_logarithmic_witness :
  reachable (mkAVLTree (Node 20 (Node 10 Null Null 1) (Node 30 Null Null 1) 2)) ∧
  2 ^ (depth (Node 20 (Node 10 Null Null 1) (Node 30 Null Null 1) 2) / 2)
    ≤ size (Node 20 (Node 10 Null Null 1) (Node 30 Null Null 1) 2) + 1.
Proof.
  assert (reachable
            (mkAVLTree (Node 20 (Node 10 Null Null 1) (Node 30 Null Null 1) 2)))
    as Hr by (exists [Insert 30; Insert 20; Insert 10]; reflexivity).
  split; [exact Hr|].
  exact (proj2 (reachable_height_logarithmic _ Hr)).
Defined.

(** ** Rotations undo each other *)

(** X8. A left rotation undoes a right rotation and a right rotation
    undoes a left rotation, links and cached heights included, when the
    cached heights of the two nodes that take part were correct. *)
Theorem rotations_inverse (yd xd : Z) (T1 T2 T3 : tree) :
  let x := Node xd T1 T2 (1 + Z.max (height T1) (height T2)) in
  let y := Node yd x T3 (1 + Z.max (height x) (height T3)) in
  let y' := Node yd T2 T3 (1 + Z.max (height T2) (height T3)) in
  let x' := Node xd T1 y' (1 + Z.max (height T1) (height y')) in
  (rightRotate y ≫= leftRotate) = Some y ∧
  (leftRotate x' ≫= rightRotate) = Some x'.
Proof. done. Qed.

(** ** At most one node is rebalanced by an insertion *)

Lemma on_path_subtree key n a : on_path key n a → subtree n a.
Proof. induction 1; by constructor. Qed.

(** A node that the insertion rebalances comes back with the height it
    had before. *)
Lemma rebalanced_keeps_height d l r h key sub node :
  balanced (Node d l r h) → heights_ok (Node d l r h) →
  (key < d ∧ insertNode l key = Some sub ∧ node = Node d sub r h) ∨
  (key > d ∧ insertNode r key = Some sub ∧ node = Node d l sub h) →
  getBalance (updateHeight node) > 1 ∨ getBalance (updateHeight node) < -1 →
  ∃ t', insertNode (Node d l r h) key = Some t' ∧
        balanced t' ∧ heights_ok t' ∧ height t' = h.
Proof.
  intros (Hb & Bl & Br) (Eh & Hl & Hr) Hrec Hbf.
  simpl in Hb. nonneg.
  destruct Hrec as [(Hk & Hins & ->)|(Hk & Hins & ->)]; simpl in Hbf.
  - destruct (insertNode_ok l key Bl Hl)
      as (l' & Hl' & Bsub & Hsub' & _ & _ & Hgrow).
    assert (l' = sub) as -> by congruence. nonneg.
    assert (height sub - height r = 2 → grew key sub) as G1.
    { intros E. destruct Hgrow as [?|[? [->|?]]]; try done; simpl in *; lia. }
    destruct (insertRebalance_ok d sub r h Bsub Hsub' Br Hr) with (k := key)
      as (t' & Ht' & Bt' & Hht' & _ & Hcase); [lia|done|lia|].
    exists t'. cbn [insertNode]. rewrite ltb_true, Hins by done.
    split_and!; try done. rewrite decide_False in Hcase by lia. lia.
  - destruct (insertNode_ok r key Br Hr)
      as (r' & Hr' & Bsub & Hsub' & _ & _ & Hgrow).
    assert (r' = sub) as -> by congruence. nonneg.
    assert (height l - height sub = -2 → grew key sub) as G2.
    { intros E. destruct Hgrow as [?|[? [->|?]]]; try done; simpl in *; lia. }
    destruct (insertRebalance_ok d l sub h Bl Hl Bsub Hsub') with (k := key)
      as (t' & Ht' & Bt' & Hht' & _ & Hcase); [lia|lia|done|].
    exists t'. cbn [insertNode]. rewrite ltb_false, gtb_true, Hins by lia.
    split_and!; try done. rewrite decide_False in Hcase by lia. lia.
Qed.

(** A node whose subtree comes back with the height it had is returned
    with the subtree reattached and nothing else changed. *)
Lemma insertNode_reattach d l r h key sub :
  balanced (Node d l r h) → heights_ok (Node d l r h) →
  (key < d → insertNode l key = Some sub → height sub = height l →
     insertNode (Node d l r h) key = Some (Node d sub r h)) ∧
  (key > d → insertNode r key = Some sub → height sub = height r →
     insertNode (Node d l r h) key = Some (Node d l sub h)).
Proof.
  intros (Hb & Bl & Br) (Eh & Hl & Hr). simpl in Hb.
  split; intros Hk Hins Hsame.
  - destruct (insertNode_ok l key Bl Hl) as (l' & Hl' & Bsub & Hsub' & _).
    assert (l' = sub) as -> by congruence.
    cbn [insertNode]. rewrite ltb_true, Hins by done.
    apply insertRebalance_id; [done|simpl..]; split_and!; try done; lia.
  - destruct (insertNode_ok r key Br Hr) as (r' & Hr' & Bsub & Hsub' & _).
    assert (r' = sub) as -> by congruence.
    cbn [insertNode]. rewrite ltb_false, gtb_true, Hins by lia.
    apply insertRebalance_id; [done|simpl..]; split_and!; try done; lia.
Qed.

(** So is every node further up on the path: the height stays the same
    all the way. *)
Lemma insertNode_path_same_height key n n' a :
  balanced a → heights_ok a → on_path key n a →
  insertNode n key = Some n' → height n' = height n →
  ∃ a', insertNode a key = Some a' ∧ height a' = height a.
Proof.
  intros Hb Hh Hpath Hins Hsame.
  induction Hpath as [|d l r h Hk _ IH|d l r h Hk _ IH].
  - by exists n'.
  - pose proof Hb as (_ & Bl & _). pose proof Hh as (_ & Hl & _).
    destruct (IH Bl Hl) as (l' & El & Hl').
    exists (Node d l' r h). split; [|done].
    by apply (proj1 (insertNode_reattach d l r h key l' Hb Hh)).
  - pose proof Hb as (_ & _ & Br). pose proof Hh as (_ & _ & Hr).
    destruct (IH Br Hr) as (r' & Er & Hr').
    exists (Node d l r' h). split; [|done].
    by apply (proj2 (insertNode_reattach d l r h key r' Hb Hh)).
Qed.

(** X9. When an insertion rebalances a node of a reachable tree (the
    balance factor was above 1 or below -1 once the subtree had been
    reattached), the subtree that [insertNode] returns there is
    balanced again and has the height that the node had before the
    insertion. *)
Theorem insert_rotation_restores_height (T : AVLTree) (d : Z) (l r : tree)
    (h key : Z) (sub node : tree) :
  reachable T → subtree (Node d l r h) (root T) →
  (key < d ∧ insertNode l key = Some sub ∧ node = Node d sub r h) ∨
  (key > d ∧ insertNode r key = Some sub ∧ node = Node d l sub h) →
  getBalance (updateHeight node) > 1 ∨ getBalance (updateHeight node) < -1 →
  ∃ t', insertNode (Node d l r h) key = Some t' ∧
        balanced t' ∧ heights_ok t' ∧ height t' = h.
Proof.
  intros (_ & Hb & Hh)%reachable_invariants Hsub.
  apply rebalanced_keeps_height.
  - by apply (subtree_balanced _ _ Hsub).
  - by apply (subtree_heights_ok _ _ Hsub).
Qed.

Lemma insert_rotation_restores_height_witness :
  reachable (mkAVLTree (Node 30 (Node 20 Null Null 1) Null 2)) ∧
  insertNode (Node 20 Null Null 1) 10 = Some (Node 20 (Node 10 Null Null 1) Null 2) ∧
  getBalance (updateHeight (Node 30 (Node 20 (Node 10 Null Null 1) Null 2) Null 2)) > 1 ∧
  ∃ t', insertNode (Node 30 (Node 20 Null Null 1) Null 2) 10 = Some t' ∧
        height t' = 2.
Proof.
  assert (reachable (mkAVLTree (Node 30 (Node 20 Null Null 1) Null 2)))
    as Hr by (exists [Insert 30; Insert 20]; reflexivity).
  split; [exact Hr|]. split; [reflexivity|]. split; [simpl; lia|].
  destruct (insert_rotation_restores_height
              (mkAVLTree (Node 30 (Node 20 Null Null 1) Null 2))
              30 (Node 20 Null Null 1) Null 2 10
              (Node 20 (Node 10 Null Null 1) Null 2)
              (Node 30 (Node 20 (Node 10 Null Null 1) Null 2) Null 2))
    as (t' & E & _ & _ & Hh).
  - exact Hr.
  - apply subtree_refl.
  - left. split; [lia|]. split; reflexivity.
  - left. simpl. lia.
  - exists t'. split; [exact E|exact Hh].
Defined.

(** X10. Take a node of a reachable tree and a key that [insertNode]
    sends into one of its subtrees, and a node [n] that the insertion
    visits in that subtree.  If [n] comes back with the height it had,
    then the subtree comes back with the height it had and [insertNode]
    returns the node with the subtree reattached and nothing else
    changed: no rotation, same cached height.  A node [n] that the
    insertion rebalances comes back with the height it had, so no node
    above a rebalanced node is rebalanced. *)
Theorem insert_same_height_no_rotation (T : AVLTree) (d : Z) (l r : tree)
    (h key : Z) (n n' : tree) :
  reachable T → subtree (Node d l r h) (root T) → key ≠ d →
  on_path key n (if decide (key < d) then l else r) →
  insertNode n key = Some n' →
  let unchanged_above :=
    ∃ sub,
      insertNode (if decide (key < d) then l else r) key = Some sub ∧
      height sub = height (if decide (key < d) then l else r) ∧
      insertNode (Node d l r h) key
        = Some (if decide (key < d) then Node d sub r h else Node d l sub h) in
  (height n' = height n → unchanged_above) ∧
  (∀ nd nl nr nh s,
     n = Node nd nl nr nh →
     (key < nd ∧ insertNode nl key = Some s ∧
      (getBalance (updateHeight (Node nd s nr nh)) > 1 ∨
       getBalance (updateHeight (Node nd s nr nh)) < -1)) ∨
     (key > nd ∧ insertNode nr key = Some s ∧
      (getBalance (updateHeight (Node nd nl s nh)) > 1 ∨
       getBalance (updateHeight (Node nd nl s nh)) < -1)) →
     unchanged_above).
Proof.
  intros (_ & Hb & Hh)%reachable_invariants Hsub Hne Hpath Hins P.
  apply (subtree_balanced _ _ Hsub) in Hb.
  apply (subtree_heights_ok _ _ Hsub) in Hh.
  pose proof Hb as (_ & Bl & Br). pose proof Hh as (_ & Hl & Hr).
  assert (height n' = height n → P) as Hsame.
  { intros Hsame. subst P. case_decide as Hk.
    - destruct (insertNode_path_same_height key n n' l Bl Hl Hpath Hins Hsame)
        as (sub & Esub & Hsub').
      exists sub. split_and!; try done.
      by apply (proj1 (insertNode_reattach d l r h key sub Hb Hh)).
    - destruct (insertNode_path_same_height key n n' r Br Hr Hpath Hins Hsame)
        as (sub & Esub & Hsub').
      exists sub. split_and!; try done.
      apply (proj2 (insertNode_reattach d l r h key sub Hb Hh)); [lia|done..]. }
  split; [done|].
  intros nd nl nr nh s -> Hreb. apply Hsame.
  assert (balanced (Node nd nl nr nh) ∧ heights_ok (Node nd nl nr nh))
    as [Bn Hn].
  { apply on_path_subtree in Hpath.
    case_decide; eauto using subtree_balanced, subtree_heights_ok. }
  destruct (rebalanced_keeps_height nd nl nr nh key s
              (if decide (key < nd) then Node nd s nr nh else Node nd nl s nh)
              Bn Hn) as (t' & Et' & _ & _ & Ht').
  - destruct Hreb as [(Hk & Es & _)|(Hk & Es & _)].
    + left. by rewrite decide_True by done.
    + right. by rewrite decide_False by lia.
  - destruct Hreb as [(Hk & _ & Hbf)|(Hk & _ & Hbf)].
    + by rewrite decide_True by done.
    + by rewrite decide_False by lia.
  - simpl. congruence.
Qed.

(** Inserting 5 below 50/30/20/10: the node 20 takes a right rotation
    and comes back as 10 with children 5 and 20; the nodes 30 and 50
    above it are returned with that subtree reattached and with the
    cached heights 3 and 4 they had. *)
Lemma insert_same_height_no_rotation_witness :
  reachable
    (mkAVLTree
       (Node 50
          (Node 30 (Node 20 (Node 10 Null Null 1) Null 2) (Node 40 Null Null 1) 3)
          (Node 70 (Node 60 Null Null 1) (Node 80 Null Null 1) 2) 4)) ∧
  on_path 5 (Node 20 (Node 10 Null Null 1) Null 2)
    (Node 30 (Node 20 (Node 10 Null Null 1) Null 2) (Node 40 Null Null 1) 3) ∧
  insertNode (Node 10 Null Null 1) 5 = Some (Node 10 (Node 5 Null Null 1) Null 2) ∧
  getBalance (updateHeight (Node 20 (Node 10 (Node 5 Null Null 1) Null 2) Null 2))
    > 1 ∧
  insertNode
    (Node 50
       (Node 30 (Node 20 (Node 10 Null Null 1) Null 2) (Node 40 Null Null 1) 3)
       (Node 70 (Node 60 Null Null 1) (Node 80 Null Null 1) 2) 4) 5
  = Some
      (Node 50
         (Node 30 (Node 10 (Node 5 Null Null 1) (Node 20 Null Null 1) 2)
                  (Node 40 Null Null 1) 3)
         (Node 70 (Node 60 Null Null 1) (Node 80 Null Null 1) 2) 4).
Proof.
  assert (reachable
            (mkAVLTree
               (Node 50
                  (Node 30 (Node 20 (Node 10 Null Null 1) Null 2)
                           (Node 40 Null Null 1) 3)
                  (Node 70 (Node 60 Null Null 1) (Node 80 Null Null 1) 2) 4)))
    as Hr by (exists (Insert <$> [50; 30; 70; 20; 40; 60; 80; 10]); reflexivity).
  assert (on_path 5 (Node 20 (Node 10 Null Null 1) Null 2)
            (Node 30 (Node 20 (Node 10 Null Null 1) Null 2)
                     (Node 40 Null Null 1) 3)) as Hp.
  { apply on_path_left; [lia|]. apply on_path_here. }
  split; [exact Hr|]. split; [exact Hp|]. split; [reflexivity|].
  split; [simpl; lia|].
  destruct (insert_same_height_no_rotation _ 50
              (Node 30 (Node 20 (Node 10 Null Null 1) Null 2)
                       (Node 40 Null Null 1) 3)
              (Node 70 (Node 60 Null Null 1) (Node 80 Null Null 1) 2) 4 5
              (Node 20 (Node 10 Null Null 1) Null 2)
              (Node 10 (Node 5 Null Null 1) (Node 20 Null Null 1) 2)
              Hr (subtree_refl _)) as [_ Hreb];
    [lia|exact Hp|reflexivity|].
  destruct (Hreb 20 (Node 10 Null Null 1) Null 2
              (Node 10 (Node 5 Null Null 1) Null 2) eq_refl)
    as (sub & Esub & _ & E).
  - left. split; [lia|]. split; [reflexivity|]. left. simpl. lia.
  - simpl in Esub. injection Esub as <-. exact E.
Defined.

(** ** Insertion and removal compose *)

Lemma sorted_same_elements (l1 l2 : list Z) :
  StronglySorted Z.lt l1 → StronglySorted Z.lt l2 →
  (∀ x, x ∈ l1 ↔ x ∈ l2) → l1 = l2.
Proof.
  intros S1 S2 Hin. apply (StronglySorted_unique_strong Z.lt); try done.
  - intros x1 x2 _ _ ? ?. lia.
  - apply NoDup_Permutation; [| |done].
    + clear S2 Hin. induction S1 as [|x l _ IH Hx]; constructor; [|done].
      intros Hin. rewrite Forall_forall in Hx. specialize (Hx _ Hin). lia.
    + clear S1 Hin. induction S2 as [|x l _ IH Hx]; constructor; [|done].
      intros Hin. rewrite Forall_forall in Hx. specialize (Hx _ Hin). lia.
Qed.

(** X11. Inserting a key that a reachable tree does not hold and then
    removing it returns normally and gives a tree with the keys of the
    original tree, in the same in-order sequence, that satisfies the
    invariants.  (The shape may differ, see
    [insert_remove_changes_shape].) *)
Theorem insert_then_remove (t : AVLTree) (k : Z) :
  reachable t → k ∉ inorder (root t) →
  ∃ t', (_ ← insert k; remove k) t = Some (tt, t') ∧
        inorder (root t') = inorder (root t) ∧
        invariants (root t').
Proof.
  intros Hinv%reachable_invariants Hk.
  destruct (exec_ok (Insert k) t Hinv) as (t1 & E1 & Hinv1 & Hin1).
  destruct (exec_ok (Remove k) t1 Hinv1) as (t2 & E2 & Hinv2 & Hin2).
  simpl in E1, E2. exists t2. split_and!; [|..|done].
  - change ((_ ← insert k; remove k) t)
      with (method_bind _ _ (λ _, remove k) (insert k) t).
    unfold method_bind. by rewrite E1.
  - destruct Hinv as (Hs & _), Hinv2 as (Hs2 & _).
    apply sorted_same_elements; [by apply bst_sorted..|].
    intros x. rewrite Hin2. simpl. rewrite elem_of_difference.
    rewrite elem_of_list_to_set, Hin1. simpl.
    rewrite elem_of_union, elem_of_list_to_set, !elem_of_singleton.
    split; [tauto|]. intros Hx. split; [tauto|]. by intros ->.
Qed.

Lemma insert_then_remove_witness :
  reachable (mkAVLTree (Node 30 (Node 20 Null Null 1) Null 2)) ∧
  (10 ∉ inorder (Node 30 (Node 20 Null Null 1) Null 2)) ∧
  ∃ t', (_ ← insert 10; remove 10)
          (mkAVLTree (Node 30 (Node 20 Null Null 1) Null 2)) = Some (tt, t') ∧
        inorder (root t') = [20; 30].
Proof.
  assert (reachable (mkAVLTree (Node 30 (Node 20 Null Null 1) Null 2)))
    as Hr by (exists [Insert 30; Insert 20]; reflexivity).
  assert (10 ∉ inorder (Node 30 (Node 20 Null Null 1) Null 2)) as Hk.
  { simpl. rewrite !elem_of_cons, elem_of_nil. lia. }
  split; [exact Hr|]. split; [exact Hk|].
  destruct (insert_then_remove _ 10 Hr Hk) as (t' & E & Hin & _).
  exists t'. split; [exact E|exact Hin].
Defined.

(** X12. On a reachable tree, a search for [k] after [insert k] is
    true and after [remove k] is false, and a search for any other key
    answers after either operation what it answered before. *)
Theorem search_after_update (t : AVLTree) (k : Z) :
  reachable t →
  ∃ ti tr,
    insert k t = Some (tt, ti) ∧ remove k t = Some (tt, tr) ∧
    search k ti = Some (true, ti) ∧ search k tr = Some (false, tr) ∧
    ∀ x, x ≠ k →
      ∃ b, search x t = Some (b, t) ∧
           search x ti = Some (b, ti) ∧ search x tr = Some (b, tr).
Proof.
  intros Hinv%reachable_invariants.
  destruct (exec_ok (Insert k) t Hinv) as (ti & Ei & (Hsi & _) & Hini).
  destruct (exec_ok (Remove k) t Hinv) as (tr & Er & (Hsr & _) & Hinr).
  destruct Hinv as (Hs & _). simpl in *.
  assert (∀ x, x ∈ inorder (root ti) ↔ x = k ∨ x ∈ inorder (root t)) as Hi.
  { intros x. rewrite Hini. set_solver. }
  assert (∀ x, x ∈ inorder (root tr) ↔ x ∈ inorder (root t) ∧ x ≠ k) as Hr.
  { intros x. rewrite Hinr. set_solver. }
  exists ti, tr. rewrite !search_bst by done. split_and!; try done.
  - rewrite bool_decide_eq_true_2; [done|]. apply Hi. by left.
  - rewrite bool_decide_eq_false_2; [done|]. rewrite Hr. tauto.
  - intros x Hne. exists (bool_decide (x ∈ inorder (root t))).
    rewrite !search_bst by done. split_and!; try done; do 2 f_equal.
    + apply bool_decide_ext. rewrite Hi. tauto.
    + apply bool_decide_ext. rewrite Hr. tauto.
Qed.

Lemma search_after_update_witness :
  reachable (mkAVLTree (Node 10 Null Null 1)) ∧
  ∃ ti tr,
    insert 20 (mkAVLTree (Node 10 Null Null 1)) = Some (tt, ti) ∧
    remove 20 (mkAVLTree (Node 10 Null Null 1)) = Some (tt, tr) ∧
    search 20 ti = Some (true, ti) ∧ search 20 tr = Some (false, tr).
Proof.
  assert (reachable (mkAVLTree (Node 10 Null Null 1)))
    as Hr by (exists [Insert 10]; reflexivity).
  split; [exact Hr|].
  destruct (search_after_update _ 20 Hr) as (ti & tr & Ei & Er & Si & Sr & _).
  exists ti, tr. split; [exact Ei|]. split; [exact Er|].
  split; [exact Si|exact Sr].
Defined.

(** Inserting a key and removing it again need not give back the shape
    of the tree: here the insertion rotates and the removal does not. *)
Example insert_remove_changes_shape :
  (_ ← insert 10; remove 10) (mkAVLTree (Node 30 (Node 20 Null Null 1) Null 2))
  = Some (tt, mkAVLTree (Node 20 Null (Node 30 Null Null 1) 2)).
Proof. reflexivity. Qed.

(** ** Teardown *)

Lemma destroyRecursive_inorder t : destroyRecursive t ≡ₚ inorder t.
Proof.
  induction t as [|d l IHl r IHr h]; simpl; [done|].
  rewrite IHl, IHr. apply Permutation_app_head.
  by rewrite <-Permutation_cons_append.
Qed.

(** X13. The destructor deletes every node of the tree exactly once:
    the deleted cells are the nodes of the tree, as many as the tree
    has, and no key is met twice when the tree is a search tree.  Both
    subtrees of a node are deleted before the node itself, and the root
    is left absent. *)
Theorem destructor_deletes_every_node_once (t : AVLTree) :
  (AVLTree_delete t).1 ≡ₚ inorder (root t) ∧
  Z.of_nat (length (AVLTree_delete t).1) = size (root t) ∧
  (bst (root t) → NoDup (AVLTree_delete t).1) ∧
  (∀ d l r h, subtree (Node d l r h) (root t) →
     ∃ before after,
       (AVLTree_delete t).1 =
         before ++ destroyRecursive l ++ destroyRecursive r ++ d :: after) ∧
  root (AVLTree_delete t).2 = Null.
Proof.
  destruct t as [u]. unfold AVLTree_delete. simpl. split_and!; try done.
  - apply destroyRecursive_inorder.
  - by rewrite destroyRecursive_inorder, size_inorder.
  - intros Hs. rewrite destroyRecursive_inorder. by apply bst_NoDup.
  - intros d l r h Hsub.
    induction Hsub as [|d' l' r' h' _ IH|d' l' r' h' _ IH].
    + by exists [], [].
    + destruct IH as (before & after & E).
      exists before, (after ++ destroyRecursive r' ++ [d']). simpl.
      rewrite E. by rewrite <-!app_assoc.
    + destruct IH as (before & after & E).
      exists (destroyRecursive l' ++ before), (after ++ [d']). simpl.
      rewrite E. by rewrite <-!app_assoc.
Qed.

Lemma destructor_deletes_every_node_once_witness :
  bst (Node 20 (Node 10 Null Null 1) (Node 30 Null Null 1) 2) ∧
  NoDup (AVLTree_delete
           (mkAVLTree (Node 20 (Node 10 Null Null 1) (Node 30 Null Null 1) 2))).1.
Proof.
  assert (bst (Node 20 (Node 10 Null Null 1) (Node 30 Null Null 1) 2)) as Hs.
  { simpl. repeat constructor; lia. }
  split; [exact Hs|].
  destruct (destructor_deletes_every_node_once
              (mkAVLTree (Node 20 (Node 10 Null Null 1) (Node 30 Null Null 1) 2)))
    as (_ & _ & Hnd & _).
  apply Hnd. exact Hs.
Defined.

(** * Scenarios

    The scenarios of the spec and the assertions of [runAssertTests],
    run on the embedding. *)

(** The keys of a list inserted into a fresh tree, then some removed. *)
Example rotation_LL :
  run (Insert <$> [30; 20; 10]) AVLTree_new
  = Some (tt, mkAVLTree (Node 20 (Node 10 Null Null 1) (Node 30 Null Null 1) 2)).
Proof. reflexivity. Qed.

Example rotation_RR :
  run (Insert <$> [10; 20; 30]) AVLTree_new
  = Some (tt, mkAVLTree (Node 20 (Node 10 Null Null 1) (Node 30 Null Null 1) 2)).
Proof. reflexivity. Qed.

Example rotation_LR :
  run (Insert <$> [30; 10; 20]) AVLTree_new
  = Some (tt, mkAVLTree (Node 20 (Node 10 Null Null 1) (Node 30 Null Null 1) 2)).
Proof. reflexivity. Qed.

Example rotation_RL :
  run (Insert <$> [10; 30; 20]) AVLTree_new
  = Some (tt, mkAVLTree (Node 20 (Node 10 Null Null 1) (Node 30 Null Null 1) 2)).
Proof. reflexivity. Qed.

Example removals_leaf_one_child_two_children :
  run ((Insert <$> [10; 5; 15; 3; 7; 12; 17]) ++ [Remove 3; Remove 5; Remove 10])
      AVLTree_new
  = Some (tt, mkAVLTree (Node 12 (Node 7 Null Null 1)
                                 (Node 15 Null (Node 17 Null Null 1) 2) 3)).
Proof. reflexivity. Qed.

Example removal_rebalances :
  run ((Insert <$> [20; 10; 30; 5]) ++ [Remove 30]) AVLTree_new
  = Some (tt, mkAVLTree (Node 10 (Node 5 Null Null 1) (Node 20 Null Null 1) 2)).
Proof. reflexivity. Qed.

Example search_after_inserts :
  (_ ← run (Insert <$> [10; 20; 30; 40; 50; 25]); search 25) AVLTree_new
  = Some (true,
          mkAVLTree (Node 30 (Node 20 (Node 10 Null Null 1) (Node 25 Null Null 1) 2)
                             (Node 40 Null (Node 50 Null Null 1) 2) 3)).
Proof. reflexivity. Qed.

(** One removal that rotates at two levels: removing 23 leaves the node
    30 with a right subtree two higher than the absent left one, which
    takes a right-left double rotation; the subtree that comes back is
    one lower than before, so the root 22 is then out of balance too and
    takes a right rotation. *)
Example removal_rotates_at_two_levels :
  let L := Node 15 (Node 2 (Node 1 Null Null 1)
                           (Node 4 Null (Node 7 Null Null 1) 2) 3)
                   (Node 16 Null (Node 17 Null Null 1) 2) 4 in
  let R := Node 30 (Node 23 Null Null 1)
                   (Node 39 (Node 34 Null Null 1) Null 2) 3 in
  let R' := Node 34 (Node 30 Null Null 1) (Node 39 Null Null 1) 2 in
  run (Insert <$> [22; 2; 30; 39; 16; 15; 23; 4; 1; 34; 17; 7]) AVLTree_new
    = Some (tt, mkAVLTree (Node 22 L R 5)) ∧
  delete_case
    (updateHeight (Node 30 Null (Node 39 (Node 34 Null Null 1) Null 2) 3))
    = RotateRightLeft ∧
  deleteNode R 23 = Some R' ∧
  delete_case (updateHeight (Node 22 L R' 5)) = RotateRight ∧
  deleteNode (Node 22 L R 5) 23
    = Some (Node 15 (Node 2 (Node 1 Null Null 1)
                            (Node 4 Null (Node 7 Null Null 1) 2) 3)
                    (Node 22 (Node 16 Null (Node 17 Null Null 1) 2) R' 3) 4).
Proof. repeat split. Qed.
